(** * Route prefetching hooks: client/src/hooks/usePrefetchRoutes.ts

    A shallow embedding of the two React hooks [usePrefetchRoutes] and
    [usePrefetchFromReturnUrl] together with the module-level helpers they
    call.  The browser's event loop is made explicit: timers, idle
    callbacks and pending loader promises are data held in the state, and
    the host environment picks which of them runs next. *)

From Stdlib Require Import String Ascii List Bool Arith NArith Lia.
From stdpp Require Import base option list strings gmap.
Import ListNotations.

(** ** String primitives of the host language *)

Module JS.

(** [s.startsWith(p)] *)
Definition startsWith (s p : string) : bool := String.prefix p s.

(** [s.split(sep)] for a one-character separator.  The result is never
    empty: a string without the separator is returned as its only piece. *)
Fixpoint split (sep : ascii) (s : string) : list string :=
  match s with
  | EmptyString => [EmptyString]
  | String c rest =>
      if Ascii.eqb c sep then EmptyString :: split sep rest
      else match split sep rest with
           | piece :: pieces => String c piece :: pieces
           | [] => [String c EmptyString]
           end
  end.

(** [xs[i]] on an array of strings; [None] stands for [undefined]. *)
Definition index (xs : list string) (i : nat) : option string := xs !! i.

(** [xs.includes(x)] *)
Definition includes (xs : list string) (x : string) : bool :=
  existsb (String.eqb x) xs.

(** Truthiness of a possibly [undefined] boolean. *)
Definition truthy (b : option bool) : bool := default false b.

End JS.

(** ** Module-level data *)

(** A loader is the arrow function [() => import(path)]; it is identified
    by the module path it imports. *)
Definition loader := string.

(** The own properties of the route table: the keys written in the object
    literal. *)
Definition routeComponentMap : gmap string loader :=
  list_to_map
    [ ("/", "@/pages/home-page");
      ("/catalog", "@/pages/catalog-page");
      ("/products", "@/pages/product-detail-page");
      ("/cart", "@/pages/cart-page");
      ("/wishlist", "@/pages/wishlist-page");
      ("/profile", "@/pages/profile-page");
      ("/checkout", "@/pages/checkout-page");
      ("/login", "@/pages/login-page");
      ("/register", "@/pages/register-page");
      ("/verify-email", "@/pages/verify-email-page");
      ("/privacy-policy", "@/pages/privacy-policy-page");
      ("/admin", "@/pages/admin/dashboard-page");
      ("/admin/users", "@/pages/admin/users-page");
      ("/admin/products", "@/pages/admin/products-page");
      ("/admin/categories", "@/pages/admin/categories-page");
      ("/admin/promocodes", "@/pages/admin/promocodes-page");
      ("/admin/orders", "@/pages/admin/orders-page");
      ("/admin/support", "@/pages/admin/support-chat-page") ].

(** The route table is an ordinary object, so a lookup that misses its own
    keys goes on to the properties every object inherits from
    [Object.prototype].  These are their names; eleven of them hold a
    function and [__proto__] yields the prototype object itself, so each of
    them reads as a truthy value. *)
Definition Object_prototype_names : list string :=
  [ "constructor"; "__defineGetter__"; "__defineSetter__"; "hasOwnProperty";
    "__lookupGetter__"; "__lookupSetter__"; "isPrototypeOf";
    "propertyIsEnumerable"; "toString"; "valueOf"; "__proto__"; "toLocaleString" ].

(** What [routeComponentMap[route]] evaluates to. *)
Inductive property_value :=
  | LoaderFunction (l : loader)   (* an own key: the arrow function written there *)
  | InheritedValue                (* a value found on the prototype *)
  | UndefinedValue.               (* no such property *)

Definition routeComponentMap_get (route : string) : property_value :=
  match routeComponentMap !! route with
  | Some l => LoaderFunction l
  | None =>
      if JS.includes Object_prototype_names route then InheritedValue
      else UndefinedValue
  end.

(** ** The host environment *)

(** The NetworkInformation object; a missing property reads as
    [undefined], which is falsy for [saveData] and matches no entry of
    [slowConnections] for [effectiveType]. *)
Record connection := {
  saveData : option bool;
  effectiveType : option string
}.

(** The three vendor spellings read by [shouldPrefetch]. *)
Record navigator := {
  nav_connection : option connection;
  nav_mozConnection : option connection;
  nav_webkitConnection : option connection
}.

(** Console output, in the order it is written. *)
Inductive console_entry :=
  | ConsoleWarn (msg : string)
  | ConsoleLog (msg : string)
  | ConsoleError (msg : string) (error : string).

(** Closures handed to [setTimeout] and [requestIdleCallback], with the
    variables they capture. *)
Inductive callback :=
  | CbWave (routes : list string)        (* timer body of prefetchWithDelay *)
  | CbPrefetch (route : string)          (* () => prefetchRoute(route) *)
  | CbLoginBurst (hasStaffRole : bool)   (* idle body of the login transition *)
  | CbAdminBurst                         (* idle body of the admin-page burst *)
  | CbReturnUrl (returnUrl : string).    (* idle body of usePrefetchFromReturnUrl *)

(** A pending [setTimeout]: the clock value from which it may fire. *)
Record timer := { due : N; timer_cb : callback }.

(** A pending [requestIdleCallback] with its [options.timeout]. *)
Record idle_request := { idle_timeout : option N; idle_cb : callback }.

Record state := {
  prefetchedRoutes : gset string;         (* the module-level Set *)
  previousAuthState : option bool;        (* useRef<boolean | null>(null) *)
  nav : option navigator;                 (* None: typeof navigator === 'undefined' *)
  hasRequestIdleCallback : bool;          (* typeof requestIdleCallback !== 'undefined' *)
  now : N;                                (* milliseconds on the host clock *)
  timers : list timer;
  idle_queue : list idle_request;
  inflight : list string;                 (* routes whose loader promise is pending *)
  loaderCalls : list string;              (* every loader() invocation, oldest first *)
  console : list console_entry;
  uncaught : list string                  (* exceptions that escaped a callback to the host *)
}.

Definition set_prefetchedRoutes (f : gset string → gset string) (st : state) : state :=
  {| prefetchedRoutes := f (prefetchedRoutes st);
     previousAuthState := previousAuthState st; nav := nav st;
     hasRequestIdleCallback := hasRequestIdleCallback st; now := now st;
     timers := timers st; idle_queue := idle_queue st; inflight := inflight st;
     loaderCalls := loaderCalls st; console := console st; uncaught := uncaught st |}.

Definition set_previousAuthState (v : option bool) (st : state) : state :=
  {| prefetchedRoutes := prefetchedRoutes st;
     previousAuthState := v; nav := nav st;
     hasRequestIdleCallback := hasRequestIdleCallback st; now := now st;
     timers := timers st; idle_queue := idle_queue st; inflight := inflight st;
     loaderCalls := loaderCalls st; console := console st; uncaught := uncaught st |}.

Definition set_nav (v : option navigator) (st : state) : state :=
  {| prefetchedRoutes := prefetchedRoutes st;
     previousAuthState := previousAuthState st; nav := v;
     hasRequestIdleCallback := hasRequestIdleCallback st; now := now st;
     timers := timers st; idle_queue := idle_queue st; inflight := inflight st;
     loaderCalls := loaderCalls st; console := console st; uncaught := uncaught st |}.

Definition set_now (v : N) (st : state) : state :=
  {| prefetchedRoutes := prefetchedRoutes st;
     previousAuthState := previousAuthState st; nav := nav st;
     hasRequestIdleCallback := hasRequestIdleCallback st; now := v;
     timers := timers st; idle_queue := idle_queue st; inflight := inflight st;
     loaderCalls := loaderCalls st; console := console st; uncaught := uncaught st |}.

Definition set_timers (f : list timer → list timer) (st : state) : state :=
  {| prefetchedRoutes := prefetchedRoutes st;
     previousAuthState := previousAuthState st; nav := nav st;
     hasRequestIdleCallback := hasRequestIdleCallback st; now := now st;
     timers := f (timers st); idle_queue := idle_queue st; inflight := inflight st;
     loaderCalls := loaderCalls st; console := console st; uncaught := uncaught st |}.

Definition set_idle_queue (f : list idle_request → list idle_request) (st : state) : state :=
  {| prefetchedRoutes := prefetchedRoutes st;
     previousAuthState := previousAuthState st; nav := nav st;
     hasRequestIdleCallback := hasRequestIdleCallback st; now := now st;
     timers := timers st; idle_queue := f (idle_queue st); inflight := inflight st;
     loaderCalls := loaderCalls st; console := console st; uncaught := uncaught st |}.

Definition set_inflight (f : list string → list string) (st : state) : state :=
  {| prefetchedRoutes := prefetchedRoutes st;
     previousAuthState := previousAuthState st; nav := nav st;
     hasRequestIdleCallback := hasRequestIdleCallback st; now := now st;
     timers := timers st; idle_queue := idle_queue st; inflight := f (inflight st);
     loaderCalls := loaderCalls st; console := console st; uncaught := uncaught st |}.

Definition set_loaderCalls (f : list string → list string) (st : state) : state :=
  {| prefetchedRoutes := prefetchedRoutes st;
     previousAuthState := previousAuthState st; nav := nav st;
     hasRequestIdleCallback := hasRequestIdleCallback st; now := now st;
     timers := timers st; idle_queue := idle_queue st; inflight := inflight st;
     loaderCalls := f (loaderCalls st); console := console st;
     uncaught := uncaught st |}.

Definition set_console (f : list console_entry → list console_entry) (st : state) : state :=
  {| prefetchedRoutes := prefetchedRoutes st;
     previousAuthState := previousAuthState st; nav := nav st;
     hasRequestIdleCallback := hasRequestIdleCallback st; now := now st;
     timers := timers st; idle_queue := idle_queue st; inflight := inflight st;
     loaderCalls := loaderCalls st; console := f (console st);
     uncaught := uncaught st |}.

Definition set_uncaught (f : list string → list string) (st : state) : state :=
  {| prefetchedRoutes := prefetchedRoutes st;
     previousAuthState := previousAuthState st; nav := nav st;
     hasRequestIdleCallback := hasRequestIdleCallback st; now := now st;
     timers := timers st; idle_queue := idle_queue st; inflight := inflight st;
     loaderCalls := loaderCalls st; console := console st;
     uncaught := f (uncaught st) |}.

(** ** Host scheduling primitives *)

(** [setTimeout(cb, delay)] *)
Definition setTimeout (cb : callback) (delay : N) (st : state) : state :=
  set_timers (λ ts, ts ++ [{| due := (now st + delay)%N; timer_cb := cb |}]) st.

(** [requestIdleCallback(cb, options)] *)
Definition requestIdleCallback (cb : callback) (timeout : option N) (st : state) : state :=
  set_idle_queue (λ q, q ++ [{| idle_timeout := timeout; idle_cb := cb |}]) st.

Definition safeRequestIdleCallback (cb : callback) (timeout : option N) (st : state) : state :=
  if hasRequestIdleCallback st then requestIdleCallback cb timeout st
  else setTimeout cb 1%N st.

(** ** prefetchRoute *)

(** The [.then] handler of the loader promise. *)
Definition onFulfilled (route : string) (st : state) : state :=
  set_console (λ c, c ++ [ConsoleLog ("✅ Prefetched: " +:+ route)])
    (set_prefetchedRoutes (λ s, {[route]} ∪ s) st).

(** The [.catch] handler of the loader promise. *)
Definition onRejected (route error : string) (st : state) : state :=
  set_console (λ c, c ++ [ConsoleError ("❌ Failed to prefetch " +:+ route +:+ ":") error]) st.

(** An inherited value passes the test [!loader]; called as [loader()] and
    followed by [.then], none of the twelve gives a promise, and line 50
    throws a [TypeError] before any module is imported.  The exception
    leaves [prefetchRoute] and the callback that called it and reaches the
    host, which goes on with the next task: it is recorded in [uncaught].
    Wherever the module calls [prefetchRoute] the call either has a literal
    route of the table, which cannot throw, or is the last statement of its
    callback, so an exception never skips a later statement. *)
Definition prefetchRoute (route : string) (st : state) : state :=
  if bool_decide (route ∈ prefetchedRoutes st) then st
  else
    match routeComponentMap_get route with
    | UndefinedValue =>
        set_console (λ c, c ++ [ConsoleWarn ("No loader found for route: " +:+ route)]) st
    | LoaderFunction _ =>
        set_inflight (λ p, p ++ [route]) (set_loaderCalls (λ l, l ++ [route]) st)
    | InheritedValue =>
        set_uncaught (λ u, u ++ ["TypeError"]) st
    end.

(** ** shouldPrefetch *)

(** [a || b || c] on objects: the first one that is present. *)
Definition js_or {A} (a b : option A) : option A :=
  match a with Some _ => a | None => b end.

Definition shouldPrefetch (st : state) : bool :=
  match nav st with
  | None => false
  | Some n =>
      match js_or (js_or (nav_connection n) (nav_mozConnection n)) (nav_webkitConnection n) with
      | Some connection =>
          if JS.truthy (saveData connection) then false
          else
            let slowConnections := ["slow-2g"; "2g"] in
            if match effectiveType connection with
               | Some t => JS.includes slowConnections t
               | None => false
               end
            then false
            else true
      | None => true
      end
  end.

(** ** State transformers

    Every function of the module returns [void]; its meaning is the change
    it makes to the state. *)

Definition cmd := state → state.

Definition skip : cmd := λ st, st.
Definition seq (c1 c2 : cmd) : cmd := λ st, c2 (c1 st).
Declare Scope cmd_scope.
Delimit Scope cmd_scope with cmd.
Notation "c1 ;; c2" := (seq c1 c2)
  (at level 100, c2 at level 200, right associativity) : cmd_scope.
Open Scope cmd_scope.

Definition when (b : bool) (c : cmd) : cmd := if b then c else skip.

(** [xs.forEach(f)] *)
Fixpoint forEach {A} (xs : list A) (f : A → cmd) : cmd :=
  match xs with
  | [] => skip
  | x :: rest => f x ;; forEach rest f
  end.

Definition console_log (msg : string) : cmd :=
  set_console (λ c, c ++ [ConsoleLog msg]).

(** ** usePrefetchRoutes *)

Record user := { roles : option (list string) }.

(** The slice of the auth store the hook selects. *)
Record auth := {
  isAuthenticated : bool;
  authInitialized : bool;
  auth_user : option user
}.

(** [user?.roles?.some(role => [...].includes(role))]; [None] is the
    [undefined] of a short-circuited optional chain. *)
Definition hasStaffRole (u : option user) : option bool :=
  u ≫= λ u', roles u' ≫= λ rs,
    Some (existsb (λ role, JS.includes ["admin"; "marketer"; "consultant"] role) rs).

Definition prefetchWithDelay (routes : list string) (delay : N) : cmd :=
  setTimeout (CbWave routes) delay.

(** The body of each scheduled closure. *)
Definition run_callback (cb : callback) : cmd :=
  match cb with
  | CbWave routes =>
      λ st,
        if shouldPrefetch st then
          forEach routes (λ route, safeRequestIdleCallback (CbPrefetch route) (Some 2000%N)) st
        else st
  | CbPrefetch route => prefetchRoute route
  | CbLoginBurst staff =>
      prefetchRoute "/cart" ;;
      prefetchRoute "/wishlist" ;;
      prefetchRoute "/profile" ;;
      when staff
        (console_log "👤 Staff user detected, preloading admin routes..." ;;
         prefetchWithDelay
           [ "/admin"; "/admin/products"; "/admin/categories"; "/admin/orders";
             "/admin/promocodes"; "/admin/users"; "/admin/support" ] 1000%N)
  | CbAdminBurst =>
      prefetchRoute "/admin" ;;
      prefetchRoute "/admin/products" ;;
      prefetchRoute "/admin/categories" ;;
      prefetchRoute "/admin/orders" ;;
      prefetchRoute "/admin/promocodes" ;;
      prefetchRoute "/admin/users" ;;
      prefetchRoute "/admin/support"
  | CbReturnUrl returnUrl =>
      let normalizedUrl :=
        default "" (JS.index (JS.split "#" (default "" (JS.index (JS.split "?" returnUrl) 0))) 0) in
      if JS.startsWith normalizedUrl "/cart" then prefetchRoute "/cart"
      else if JS.startsWith normalizedUrl "/wishlist" then prefetchRoute "/wishlist"
      else if JS.startsWith normalizedUrl "/profile" then prefetchRoute "/profile"
      else if JS.startsWith normalizedUrl "/checkout" then prefetchRoute "/checkout"
      else if JS.startsWith normalizedUrl "/admin" then
        let segments := JS.split "/" normalizedUrl in
        if length segments =? 2 then prefetchRoute "/admin"
        else if length segments =? 3 then
          prefetchRoute ("/admin/" +:+ default "" (JS.index segments 2))
        else skip
      else skip
  end.

(** The effect body of [usePrefetchRoutes], run by React after a render in
    which [isAuthenticated], [authInitialized], [user] or [location]
    changed.  [location] is a string, on which [location || ''] is the
    identity.  Nothing the body schedules runs before it returns, so the ref
    and the Loaded Set read in its two later conditions are those of the
    state the body started in. *)
Definition usePrefetchRoutes (a : auth) (location : string) : cmd :=
  λ st,
    if negb (authInitialized a) || negb (shouldPrefetch st) then st
    else
      let staff := JS.truthy (hasStaffRole (auth_user a)) in
      let isOnAdminPage := JS.startsWith location "/admin" in
      ((if negb (isAuthenticated a) then
          prefetchWithDelay ["/login"; "/register"] 0%N ;;
          prefetchWithDelay ["/catalog"; "/products"] 1000%N ;;
          prefetchWithDelay ["/privacy-policy"] 5000%N
        else
          prefetchWithDelay ["/catalog"; "/cart"; "/wishlist"; "/products"] 0%N ;;
          prefetchWithDelay ["/profile"; "/checkout"] 3000%N ;;
          prefetchWithDelay ["/privacy-policy"] 5000%N ;;
          when staff
            (prefetchWithDelay
               [ "/admin"; "/admin/products"; "/admin/categories"; "/admin/orders";
                 "/admin/promocodes"; "/admin/users"; "/admin/support" ] 7000%N)) ;;
       when (bool_decide (previousAuthState st = Some false) && isAuthenticated a)
         (console_log "🔄 User just authenticated, loading protected routes..." ;;
          safeRequestIdleCallback (CbLoginBurst staff) None) ;;
       when (isOnAdminPage && staff && negb (bool_decide ("/admin" ∈ prefetchedRoutes st)))
         (console_log "📍 On admin page, prefetching all admin routes..." ;;
          safeRequestIdleCallback CbAdminBurst None) ;;
       set_previousAuthState (Some (isAuthenticated a))) st.

(** ** usePrefetchFromReturnUrl *)

(** The effect body, run once on mount.  [returnUrl] is the value of
    [params.get('returnUrl')]: [None] when the parameter is absent. *)
Definition usePrefetchFromReturnUrl (returnUrl : option string) : cmd :=
  λ st,
    if negb (shouldPrefetch st) then st
    else
      match returnUrl with
      | Some r =>
          if negb (String.eqb r "") then
            (console_log ("🎯 Detected returnUrl: " +:+ r +:+ ", prefetching...") ;;
             safeRequestIdleCallback (CbReturnUrl r) (Some 500%N)) st
          else st
      | None => st
      end.

(** ** The event loop *)

Inductive settlement :=
  | Resolved
  | Rejected (error : string).

(** What the host may do next. *)
Inductive event :=
  | EvTick (dt : N)                                 (* time passes *)
  | EvTimer (i : nat)                               (* the i-th pending timer fires *)
  | EvIdle (i : nat)                                (* the i-th idle callback runs *)
  | EvSettle (i : nat) (outcome : settlement)       (* the i-th pending import settles *)
  | EvNavigator (n : option navigator)              (* network conditions change *)
  | EvRender (a : auth) (location : string)         (* the effect of usePrefetchRoutes runs *)
  | EvMount (returnUrl : option string).            (* the effect of usePrefetchFromReturnUrl runs *)

(** One turn of the loop; [None] when the event is not enabled. *)
Definition step (e : event) (st : state) : option state :=
  match e with
  | EvTick dt => Some (set_now (now st + dt)%N st)
  | EvTimer i =>
      t ← timers st !! i;
      if (due t <=? now st)%N
      then Some (run_callback (timer_cb t) (set_timers (delete i) st))
      else None
  | EvIdle i =>
      r ← idle_queue st !! i;
      Some (run_callback (idle_cb r) (set_idle_queue (delete i) st))
  | EvSettle i outcome =>
      route ← inflight st !! i;
      let st' := set_inflight (delete i) st in
      Some match outcome with
           | Resolved => onFulfilled route st'
           | Rejected error => onRejected route error st'
           end
  | EvNavigator n => Some (set_nav n st)
  | EvRender a location => Some (usePrefetchRoutes a location st)
  | EvMount returnUrl => Some (usePrefetchFromReturnUrl returnUrl st)
  end.

Fixpoint exec (es : list event) (st : state) : option state :=
  match es with
  | [] => Some st
  | e :: rest => st' ← step e st; exec rest st'
  end.

(** The state when the module has just been evaluated. *)
Definition init (n : option navigator) (ric : bool) : state :=
  {| prefetchedRoutes := ∅; previousAuthState := None; nav := n;
     hasRequestIdleCallback := ric; now := 0%N; timers := []; idle_queue := [];
     inflight := []; loaderCalls := []; console := []; uncaught := [] |}.

(** ** Vocabulary of the specification *)

(** The seven admin routes, in the order the specification lists them. *)
Definition adminRoutes : list string :=
  [ "/admin"; "/admin/products"; "/admin/categories"; "/admin/orders";
    "/admin/promocodes"; "/admin/users"; "/admin/support" ].

(** The staged waves of the specification: a delay in milliseconds and the
    routes of the wave, by authentication flag and staff role. *)
Definition specified_waves (authenticated staff : bool) : list (N * list string) :=
  if authenticated then
    [ (0%N, ["/catalog"; "/cart"; "/wishlist"; "/products"]);
      (3000%N, ["/profile"; "/checkout"]);
      (5000%N, ["/privacy-policy"]) ]
    ++ (if staff then [ (7000%N, adminRoutes) ] else [])
  else
    [ (0%N, ["/login"; "/register"]);
      (1000%N, ["/catalog"; "/products"]);
      (5000%N, ["/privacy-policy"]) ].

(** The pending waves of a state: due time and routes of every timer that
    was set by [prefetchWithDelay]. *)
Definition wave_of (t : timer) : option (N * list string) :=
  match timer_cb t with
  | CbWave routes => Some (due t, routes)
  | _ => None
  end.

Definition scheduled_waves (st : state) : list (N * list string) :=
  omap wave_of (timers st).

(** A user is staff when the role set meets admin, marketer, consultant. *)
Definition is_staff (a : auth) : bool := JS.truthy (hasStaffRole (auth_user a)).

(** The connection object the environment reports, if any. *)
Definition reported_connection (st : state) : option connection :=
  n ← nav st;
  js_or (js_or (nav_connection n) (nav_mozConnection n)) (nav_webkitConnection n).

Definition reports_saveData (st : state) : bool :=
  match reported_connection st with
  | Some c => bool_decide (saveData c = Some true)
  | None => false
  end.

Definition reports_slow_connection (st : state) : bool :=
  match reported_connection st with
  | Some c => bool_decide (effectiveType c = Some "slow-2g" ∨ effectiveType c = Some "2g")
  | None => false
  end.

(** What a call of [safeRequestIdleCallback cb timeout] leaves pending: an
    idle request where the host has idle scheduling, a one-millisecond
    timer where it has not. *)
Definition idle_requests_of (st : state) (timeout : option N) (cbs : list callback)
  : list idle_request :=
  if hasRequestIdleCallback st
  then map (λ cb, {| idle_timeout := timeout; idle_cb := cb |}) cbs
  else [].

Definition fallback_timers_of (st : state) (cbs : list callback) : list timer :=
  if hasRequestIdleCallback st
  then []
  else map (λ cb, {| due := (now st + 1)%N; timer_cb := cb |}) cbs.

(** The bursts an evaluation dispatches, in program order. *)
Definition bursts (login admin staff : bool) : list callback :=
  (if login then [CbLoginBurst staff] else []) ++ (if admin then [CbAdminBurst] else []).

(** How often the loader of [route] has been invoked so far. *)
Definition invocations (route : string) (st : state) : nat :=
  count_occ string_dec (loaderCalls st) route.

(** The routes among [routes] whose loader a run of requests invokes from
    a state with Loaded Set [loaded]. *)
Definition loadable (loaded : gset string) (routes : list string) : list string :=
  filter (λ r, (r ∉ loaded) ∧ (is_Some (routeComponentMap !! r))) routes.

(** The timers [prefetchWithDelay] sets for a list of waves. *)
Definition wave_timers (st : state) (waves : list (N * list string)) : list timer :=
  map (λ w, {| due := (now st + w.1)%N; timer_cb := CbWave w.2 |}) waves.

(** The evaluation sees a login: the previous one recorded a visitor. *)
Definition login_transition (a : auth) (st : state) : bool :=
  bool_decide (previousAuthState st = Some false) && isAuthenticated a.

(** A staff member is on an admin page whose bundle is not loaded yet. *)
Definition admin_page_condition (a : auth) (location : string) (st : state) : bool :=
  JS.startsWith location "/admin" && is_staff a
  && negb (bool_decide ("/admin" ∈ prefetchedRoutes st)).

(** A command is passive when it leaves the Loaded Set as it is and
    invokes loaders only for routes that are not in it.  Everything the
    module runs is passive, apart from the [.then] handler of a loader
    promise. *)
Definition passive (c : cmd) : Prop :=
  ∀ st,
    prefetchedRoutes (c st) = prefetchedRoutes st ∧
    ∃ routes,
      loaderCalls (c st) = loaderCalls st ++ loadable (prefetchedRoutes st) routes ∧
      inflight (c st) = inflight st ++ loadable (prefetchedRoutes st) routes.

(** A state is accounted for when every pending promise and every route
    of the Loaded Set stems from a loader invocation, and loaders are only
    invoked for routes of the route table. *)
Definition accounted (st : state) : Prop :=
  (∀ r, r ∈ inflight st → r ∈ loaderCalls st) ∧
  (∀ r, r ∈ prefetchedRoutes st → r ∈ loaderCalls st) ∧
  (∀ r, r ∈ loaderCalls st → is_Some (routeComponentMap !! r)).

(** The return URL with its query or fragment suffix removed: everything
    before the first question mark or hash sign. *)
Fixpoint strip_suffix (s : string) : string :=
  match s with
  | EmptyString => EmptyString
  | String c rest =>
      if (Ascii.eqb c "?") || (Ascii.eqb c "#") then EmptyString
      else String c (strip_suffix rest)
  end.

(** [pieces.join(sep)] for a one-character separator. *)
Fixpoint join (sep : ascii) (pieces : list string) : string :=
  match pieces with
  | [] => EmptyString
  | [piece] => piece
  | piece :: rest => piece +:+ String sep (join sep rest)
  end.

(** Whether a character occurs in a string. *)
Fixpoint occurs (c : ascii) (s : string) : bool :=
  match s with
  | EmptyString => false
  | String c' rest => Ascii.eqb c' c || occurs c rest
  end.

(** The route the return-URL prefetcher resolves a return URL to, in the
    words of the specification: the prefix is matched against the four
    shop routes and against the admin prefix, the latter alone or with
    exactly one further path segment. *)
Definition returnUrl_target (returnUrl : string) : option string :=
  let path := strip_suffix returnUrl in
  if String.prefix "/cart" path then Some "/cart"
  else if String.prefix "/wishlist" path then Some "/wishlist"
  else if String.prefix "/profile" path then Some "/profile"
  else if String.prefix "/checkout" path then Some "/checkout"
  else if String.prefix "/admin" path then
    match JS.split "/" path with
    | [_; _] => Some "/admin"
    | [_; _; segment] => Some ("/admin/" +:+ segment)
    | _ => None
    end
  else None.

(** The routes a scheduled closure passes to [prefetchRoute] when it runs,
    in program order, and what it does after them. *)
Definition requests_of (cb : callback) : list string :=
  match cb with
  | CbWave _ => []
  | CbPrefetch route => [route]
  | CbLoginBurst _ => ["/cart"; "/wishlist"; "/profile"]
  | CbAdminBurst => adminRoutes
  | CbReturnUrl returnUrl =>
      match returnUrl_target returnUrl with
      | Some route => [route]
      | None => []
      end
  end.

Definition aftermath (cb : callback) : cmd :=
  match cb with
  | CbWave routes => run_callback (CbWave routes)
  | CbLoginBurst staff =>
      when staff
        (console_log "👤 Staff user detected, preloading admin routes..." ;;
         prefetchWithDelay adminRoutes 1000%N)
  | _ => skip
  end.

(** A route that begins with a slash: no property name the route table
    object inherits from its prototype does. *)
Definition slashed (route : string) : Prop := String.prefix "/" route = true.

Definition callback_slashed (cb : callback) : Prop :=
  match cb with
  | CbWave routes => Forall slashed routes
  | CbPrefetch route => slashed route
  | _ => True
  end.

Definition schedule_slashed (st : state) : Prop :=
  Forall (λ t, callback_slashed (timer_cb t)) (timers st) ∧
  Forall (λ r, callback_slashed (idle_cb r)) (idle_queue st).

(** A command is tidy when it keeps the schedule slashed. *)
Definition tidy (c : cmd) : Prop := ∀ st, schedule_slashed st → schedule_slashed (c st).

Definition no_connection_info : navigator :=
  {| nav_connection := None; nav_mozConnection := None; nav_webkitConnection := None |}.

Definition data_saver_on : navigator :=
  {| nav_connection := Some {| saveData := Some true; effectiveType := Some "4g" |};
     nav_mozConnection := None; nav_webkitConnection := None |}.

Definition visitor : auth :=
  {| isAuthenticated := false; authInitialized := true; auth_user := None |}.

Definition staff_member : auth :=
  {| isAuthenticated := true; authInitialized := true;
     auth_user := Some {| roles := Some ["customer"; "marketer"] |} |}.

Definition customer : auth :=
  {| isAuthenticated := true; authInitialized := true;
     auth_user := Some {| roles := Some ["customer"] |} |}.

Definition booting : auth :=
  {| isAuthenticated := false; authInitialized := false; auth_user := None |}.

(** A browser with idle scheduling and no connection information. *)
Definition fresh : state := init (Some no_connection_info) true.

(** ** Vocabulary for the schedule *)

Definition is_wave (cb : callback) : bool :=
  match cb with CbWave _ => true | _ => false end.


Definition is_admin_burst (cb : callback) : bool :=
  match cb with CbAdminBurst => true | _ => false end.

(** Every closure that waits for a timer or for an idle period. *)
Definition pending_callbacks (st : state) : list callback :=
  map timer_cb (timers st) ++ map idle_cb (idle_queue st).

Definition count_pending (f : callback → bool) (st : state) : nat :=
  length (List.filter f (pending_callbacks st)).

(** A command is scheduling when all it does to the schedule is append:
    it removes no pending timer and no pending idle request, it queues
    idle requests only where the host has idle scheduling, and where the
    host has it the only timers it sets are those of waves. *)
Definition scheduling (c : cmd) : Prop :=
  ∀ st, ∃ ts qs,
    timers (c st) = timers st ++ ts ∧
    idle_queue (c st) = idle_queue st ++ qs ∧
    hasRequestIdleCallback (c st) = hasRequestIdleCallback st ∧
    (hasRequestIdleCallback st = false → qs = []) ∧
    (hasRequestIdleCallback st = true → Forall (λ t, is_wave (timer_cb t) = true) ts).

(** ** Vocabulary for confinement *)

(** Every route a scheduled closure may come to request, by itself or
    through what it schedules in turn. *)
Definition reach_of (cb : callback) : list string :=
  match cb with
  | CbWave routes => routes
  | CbPrefetch route => [route]
  | CbLoginBurst staff =>
      ["/cart"; "/wishlist"; "/profile"] ++ (if staff then adminRoutes else [])
  | CbAdminBurst => adminRoutes
  | CbReturnUrl returnUrl =>
      match returnUrl_target returnUrl with
      | Some route => [route]
      | None => []
      end
  end.

(** Every route an evaluation may come to request, judged by the auth
    snapshot and the location alone. *)
Definition render_reach (a : auth) (location : string) : list string :=
  concat (map snd (specified_waves (isAuthenticated a) (is_staff a)))
  ++ (if isAuthenticated a then reach_of (CbLoginBurst (is_staff a)) else [])
  ++ (if JS.startsWith location "/admin" && is_staff a then adminRoutes else []).

(** A state stays within a set of routes when everything pending, every
    loader invocation made so far and the Loaded Set stay within it. *)
Definition within (P : string → Prop) (st : state) : Prop :=
  Forall (λ t, Forall P (reach_of (timer_cb t))) (timers st) ∧
  Forall (λ r, Forall P (reach_of (idle_cb r))) (idle_queue st) ∧
  Forall P (inflight st) ∧
  Forall P (loaderCalls st) ∧
  (∀ route, route ∈ prefetchedRoutes st → P route).

Definition keeps (P : string → Prop) (c : cmd) : Prop :=
  ∀ st, within P st → within P (c st).

Definition event_within (P : string → Prop) (e : event) : Prop :=
  match e with
  | EvRender a location => Forall P (render_reach a location)
  | EvMount (Some returnUrl) => Forall P (reach_of (CbReturnUrl returnUrl))
  | _ => True
  end.

(** An event of a session in which no staff member is seen and no return
    URL is given. *)
Definition non_staff_event (e : event) : Prop :=
  match e with
  | EvRender a _ => is_staff a = false
  | EvMount returnUrl => returnUrl = None
  | _ => True
  end.

(** An event of a session in which only visitors without a staff role are
    seen and no return URL is given. *)
Definition visitor_event (e : event) : Prop :=
  match e with
  | EvRender a _ => isAuthenticated a = false ∧ is_staff a = false
  | EvMount returnUrl => returnUrl = None
  | _ => True
  end.

Definition visitor_routes : list string :=
  ["/login"; "/register"; "/catalog"; "/products"; "/privacy-policy"].

(** ** Vocabulary for return URLs *)

(** Line 186 of the source on its own: the return URL cut at the first
    question mark and then at the first hash sign. *)
Definition normalizedUrl (returnUrl : string) : string :=
  default "" (JS.index (JS.split "#" (default "" (JS.index (JS.split "?" returnUrl) 0))) 0).

(** How often a character occurs in a string. *)
Fixpoint count_char (c : ascii) (s : string) : nat :=
  match s with
  | EmptyString => 0
  | String c' rest => (if Ascii.eqb c' c then 1 else 0) + count_char c rest
  end.

Definition shop_routes : list string := ["/cart"; "/wishlist"; "/profile"; "/checkout"].

(** ** Vocabulary for the network and for exceptions *)

(** A command is blind to the network when changing the navigator before it
    runs or after it runs makes no difference. *)
Definition nav_blind (c : cmd) : Prop :=
  ∀ n st, c (set_nav n st) = set_nav n (c st).

(** A command is harmless when no exception escapes from it. *)
Definition harmless (c : cmd) : Prop := ∀ st, uncaught (c st) = uncaught st.

(** ** Basic facts about the primitives *)

Ltac unfold_cmd :=
  unfold seq, when, skip, console_log, prefetchWithDelay, safeRequestIdleCallback,
    requestIdleCallback, setTimeout in *.

Create HintDb prefetch discriminated.

Lemma prefetchRoute_loaded route st :
  route ∈ prefetchedRoutes st → prefetchRoute route st = st.
Proof.
  intros Hin. unfold prefetchRoute. by rewrite bool_decide_eq_true_2.
Qed.


Lemma prefetchRoute_inherited route st :
  route ∉ prefetchedRoutes st → routeComponentMap !! route = None →
  JS.includes Object_prototype_names route = true →
  prefetchRoute route st = set_uncaught (λ u, u ++ ["TypeError"]) st.
Proof.
  intros Hnin Hnone Hproto. unfold prefetchRoute, routeComponentMap_get.
  rewrite bool_decide_eq_false_2 by done. by rewrite Hnone, Hproto.
Qed.

Lemma prefetchRoute_known route st :
  route ∉ prefetchedRoutes st → is_Some (routeComponentMap !! route) →
  prefetchRoute route st =
    set_inflight (λ p, p ++ [route]) (set_loaderCalls (λ l, l ++ [route]) st).
Proof.
  intros Hnin [l Hl]. unfold prefetchRoute, routeComponentMap_get.
  rewrite bool_decide_eq_false_2 by done. by rewrite Hl.
Qed.

(** [prefetchRoute] touches neither the Loaded Set nor the schedule. *)
Lemma prefetchRoute_frame route st :
  let st' := prefetchRoute route st in
  prefetchedRoutes st' = prefetchedRoutes st ∧
  previousAuthState st' = previousAuthState st ∧
  nav st' = nav st ∧
  hasRequestIdleCallback st' = hasRequestIdleCallback st ∧
  now st' = now st ∧
  timers st' = timers st ∧
  idle_queue st' = idle_queue st.
Proof.
  unfold prefetchRoute, routeComponentMap_get. case_bool_decide; [done |].
  destruct (routeComponentMap !! route); [done |].
  by destruct (JS.includes Object_prototype_names route).
Qed.

Lemma loadable_nil loaded : loadable loaded [] = [].
Proof. done. Qed.

Lemma loadable_cons loaded r rs :
  loadable loaded (r :: rs) = loadable loaded [r] ++ loadable loaded rs.
Proof.
  unfold loadable. rewrite !filter_cons, filter_nil.
  by destruct (decide _).
Qed.

Lemma loadable_singleton loaded route :
  loadable loaded [route] =
    if decide (route ∈ loaded) then []
    else match routeComponentMap !! route with
         | Some _ => [route]
         | None => []
         end.
Proof.
  unfold loadable. rewrite filter_cons, filter_nil.
  destruct (decide (route ∈ loaded)) as [Hin | Hnin].
  - by rewrite decide_False by tauto.
  - destruct (routeComponentMap !! route) as [l |].
    + by rewrite decide_True by eauto.
    + rewrite decide_False; [done |]. by intros [_ [? ?]].
Qed.

Lemma prefetchRoute_loaderCalls route st :
  loaderCalls (prefetchRoute route st) =
    loaderCalls st ++ loadable (prefetchedRoutes st) [route].
Proof.
  rewrite loadable_singleton. unfold prefetchRoute, routeComponentMap_get.
  case_bool_decide; rewrite ?decide_True, ?decide_False by done.
  - by rewrite app_nil_r.
  - destruct (routeComponentMap !! route); [simpl; done |].
    destruct (JS.includes Object_prototype_names route); simpl; by rewrite app_nil_r.
Qed.

Lemma prefetchRoute_inflight route st :
  inflight (prefetchRoute route st) =
    inflight st ++ loadable (prefetchedRoutes st) [route].
Proof.
  rewrite loadable_singleton. unfold prefetchRoute, routeComponentMap_get.
  case_bool_decide; rewrite ?decide_True, ?decide_False by done.
  - by rewrite app_nil_r.
  - destruct (routeComponentMap !! route); [simpl; done |].
    destruct (JS.includes Object_prototype_names route); simpl; by rewrite app_nil_r.
Qed.

(** A run of requests, one after the other. *)
Lemma requests_frame routes st :
  let st' := forEach routes prefetchRoute st in
  prefetchedRoutes st' = prefetchedRoutes st ∧
  previousAuthState st' = previousAuthState st ∧
  nav st' = nav st ∧
  hasRequestIdleCallback st' = hasRequestIdleCallback st ∧
  now st' = now st ∧
  timers st' = timers st ∧
  idle_queue st' = idle_queue st.
Proof.
  revert st. induction routes as [| r rs IH]; intros st; simpl; [done |].
  unfold seq. specialize (IH (prefetchRoute r st)). simpl in IH.
  pose proof (prefetchRoute_frame r st) as Hf. simpl in Hf.
  destruct IH as (-> & -> & -> & -> & -> & -> & ->). done.
Qed.

Lemma requests_loaderCalls routes st :
  loaderCalls (forEach routes prefetchRoute st) =
    loaderCalls st ++ loadable (prefetchedRoutes st) routes.
Proof.
  revert st. induction routes as [| r rs IH]; intros st; simpl.
  - by rewrite loadable_nil, app_nil_r.
  - unfold seq. rewrite IH, prefetchRoute_loaderCalls.
    pose proof (prefetchRoute_frame r st) as (-> & _).
    by rewrite (loadable_cons _ r rs), app_assoc.
Qed.

Lemma requests_inflight routes st :
  inflight (forEach routes prefetchRoute st) =
    inflight st ++ loadable (prefetchedRoutes st) routes.
Proof.
  revert st. induction routes as [| r rs IH]; intros st; simpl.
  - by rewrite loadable_nil, app_nil_r.
  - unfold seq. rewrite IH, prefetchRoute_inflight.
    pose proof (prefetchRoute_frame r st) as (-> & _).
    by rewrite (loadable_cons _ r rs), app_assoc.
Qed.

(** ** The scheduler's evaluation, gate by gate *)

Lemma usePrefetchRoutes_closed a location st :
  authInitialized a = false ∨ shouldPrefetch st = false →
  usePrefetchRoutes a location st = st.
Proof.
  unfold usePrefetchRoutes. intros [-> | ->]; [done |].
  by rewrite orb_true_r.
Qed.

Lemma usePrefetchRoutes_open a location st :
  authInitialized a = true → shouldPrefetch st = true →
  let st' := usePrefetchRoutes a location st in
  let bs := bursts (login_transition a st) (admin_page_condition a location st) (is_staff a) in
  timers st' =
    timers st ++ wave_timers st (specified_waves (isAuthenticated a) (is_staff a))
              ++ fallback_timers_of st bs ∧
  idle_queue st' = idle_queue st ++ idle_requests_of st None bs ∧
  previousAuthState st' = Some (isAuthenticated a) ∧
  prefetchedRoutes st' = prefetchedRoutes st ∧
  loaderCalls st' = loaderCalls st ∧
  inflight st' = inflight st ∧
  nav st' = nav st ∧ now st' = now st ∧
  hasRequestIdleCallback st' = hasRequestIdleCallback st.
Proof.
  intros Hinit Hgate. unfold usePrefetchRoutes.
  rewrite Hinit, Hgate. simpl negb. simpl orb. cbv iota.
  unfold login_transition, admin_page_condition, is_staff, bursts,
    fallback_timers_of, idle_requests_of, wave_timers, specified_waves.
  generalize (JS.truthy (hasStaffRole (auth_user a))) as staff.
  generalize (JS.startsWith location "/admin") as onAdmin.
  generalize (bool_decide (previousAuthState st = Some false)) as wasOut.
  generalize (bool_decide ("/admin" ∈ prefetchedRoutes st)) as adminLoaded.
  intros adminLoaded wasOut onAdmin staff.
  destruct st as [loaded prev nv ric clock ts iq infl calls cons thrown].
  destruct (isAuthenticated a), staff, wasOut, onAdmin, adminLoaded, ric;
    cbn -[N.add]; rewrite <- ?app_assoc, ?app_nil_r; repeat split; reflexivity.
Qed.

(** ** Commands that only request routes *)

Lemma loadable_app loaded rs1 rs2 :
  loadable loaded (rs1 ++ rs2) = loadable loaded rs1 ++ loadable loaded rs2.
Proof. unfold loadable. apply filter_app. Qed.

Lemma passive_silent (c : cmd) :
  (∀ st, prefetchedRoutes (c st) = prefetchedRoutes st) →
  (∀ st, loaderCalls (c st) = loaderCalls st) →
  (∀ st, inflight (c st) = inflight st) →
  passive c.
Proof.
  intros H1 H2 H3 st. split; [apply H1 |].
  exists []. by rewrite loadable_nil, !app_nil_r, H2, H3.
Qed.

Lemma passive_skip : passive skip.
Proof. by apply passive_silent. Qed.

Lemma passive_seq c1 c2 : passive c1 → passive c2 → passive (c1 ;; c2).
Proof.
  intros H1 H2 st. unfold seq.
  destruct (H1 st) as (Hs1 & rs1 & Hl1 & Hi1).
  destruct (H2 (c1 st)) as (Hs2 & rs2 & Hl2 & Hi2).
  split; [congruence |].
  exists (rs1 ++ rs2).
  rewrite Hl2, Hi2, Hl1, Hi1, Hs1, loadable_app, !app_assoc. done.
Qed.

Lemma passive_when b c : passive c → passive (when b c).
Proof. destruct b; [done | intros _; apply passive_skip]. Qed.

Lemma passive_forEach {A} (xs : list A) (f : A → cmd) :
  (∀ x, passive (f x)) → passive (forEach xs f).
Proof.
  intros Hf. induction xs as [| x xs IH]; simpl.
  - apply passive_skip.
  - by apply passive_seq.
Qed.

Lemma passive_prefetchRoute route : passive (prefetchRoute route).
Proof.
  intros st. split; [apply prefetchRoute_frame |].
  exists [route]. split; [apply prefetchRoute_loaderCalls | apply prefetchRoute_inflight].
Qed.

Lemma passive_console_log msg : passive (console_log msg).
Proof. by apply passive_silent. Qed.

Lemma passive_setTimeout cb delay : passive (setTimeout cb delay).
Proof. by apply passive_silent. Qed.

Lemma passive_safeRequestIdleCallback cb timeout :
  passive (safeRequestIdleCallback cb timeout).
Proof.
  apply passive_silent; intros st; unfold safeRequestIdleCallback;
    by destruct (hasRequestIdleCallback st).
Qed.

Lemma passive_prefetchWithDelay routes delay : passive (prefetchWithDelay routes delay).
Proof. apply passive_setTimeout. Qed.

Lemma passive_set_previousAuthState v : passive (set_previousAuthState v).
Proof. by apply passive_silent. Qed.

Lemma passive_gated (g : state → bool) (c : cmd) :
  passive c → passive (λ st, if g st then c st else st).
Proof.
  intros Hc st. destruct (g st); [apply Hc | apply passive_skip].
Qed.

#[export] Hint Resolve passive_skip passive_seq passive_when passive_forEach
  passive_prefetchRoute passive_console_log passive_setTimeout
  passive_safeRequestIdleCallback passive_prefetchWithDelay
  passive_set_previousAuthState : prefetch.

Lemma passive_run_callback cb : passive (run_callback cb).
Proof.
  destruct cb as [routes | route | staff | | returnUrl]; simpl.
  - apply (passive_gated shouldPrefetch
             (forEach routes (λ route, safeRequestIdleCallback (CbPrefetch route) (Some 2000%N)))).
    auto with prefetch.
  - auto with prefetch.
  - auto 10 with prefetch.
  - auto 10 with prefetch.
  - repeat match goal with
           | |- passive (if ?b then _ else _) => destruct b
           end; auto with prefetch.
Qed.

Lemma passive_usePrefetchRoutes a location : passive (usePrefetchRoutes a location).
Proof.
  intros st. unfold usePrefetchRoutes.
  destruct (negb (authInitialized a) || negb (shouldPrefetch st)).
  - apply passive_skip.
  - generalize (bool_decide (previousAuthState st = Some false)).
    generalize (bool_decide ("/admin" ∈ prefetchedRoutes st)).
    intros b1 b2.
    lazymatch goal with
    | |- prefetchedRoutes (?c st) = _ ∧ _ => enough (passive c) as Hc by apply Hc
    end.
    destruct (isAuthenticated a); simpl negb; cbv iota; auto 10 with prefetch.
Qed.

Lemma passive_usePrefetchFromReturnUrl returnUrl :
  passive (usePrefetchFromReturnUrl returnUrl).
Proof.
  intros st. unfold usePrefetchFromReturnUrl.
  destruct (negb (shouldPrefetch st)); [apply passive_skip |].
  destruct returnUrl as [r |]; [| apply passive_skip].
  destruct (negb (r =? "")%string); [| apply passive_skip].
  lazymatch goal with
  | |- prefetchedRoutes (?c st) = _ ∧ _ => enough (passive c) as Hc by apply Hc
  end.
  auto with prefetch.
Qed.

(** ** Settling a loader promise *)


Lemma lookup_last {A} (l : list A) (x : A) : (l ++ [x]) !! length l = Some x.
Proof. induction l as [| y l IH]; simpl; done. Qed.

Lemma step_settle_resolved i route st :
  inflight st !! i = Some route →
  step (EvSettle i Resolved) st = Some (onFulfilled route (set_inflight (delete i) st)).
Proof. intros H. simpl. by rewrite H. Qed.


(** ** Claims *)

(** A route that begins with a slash is none of the inherited names. *)
Lemma slashed_not_inherited route :
  slashed route → JS.includes Object_prototype_names route = false.
Proof.
  unfold slashed. destruct route as [| c rest]; [intros H; discriminate H |].
  change (String.prefix "/" (String c rest)) with
    (if ascii_dec "/" c then String.prefix EmptyString rest else false).
  destruct (ascii_dec "/" c) as [<- | ?]; [| intros H; discriminate H].
  intros _. reflexivity.
Qed.




(** ** Executions *)

Lemma loadable_not_loaded loaded routes r : r ∈ loaded → r ∉ loadable loaded routes.
Proof.
  intros Hin Hmem. unfold loadable in Hmem.
  apply list_elem_of_filter in Hmem as [[Hnin _] _]. done.
Qed.

Lemma invocations_passive (c : cmd) route st :
  passive c → route ∈ prefetchedRoutes st →
  route ∈ prefetchedRoutes (c st) ∧ invocations route (c st) = invocations route st.
Proof.
  intros Hc Hin. destruct (Hc st) as (Hs & rs & Hl & _).
  split; [by rewrite Hs |].
  unfold invocations. rewrite Hl, count_occ_app.
  rewrite (proj1 (count_occ_not_In string_dec (loadable (prefetchedRoutes st) rs) route));
    [lia |].
  rewrite <- list_elem_of_In. by apply loadable_not_loaded.
Qed.

(** A turn of the loop changes the Loaded Set only when a loader promise
    resolves, and then by adding the route of that promise. *)
Lemma step_prefetchedRoutes e st st' :
  step e st = Some st' →
  prefetchedRoutes st' = prefetchedRoutes st ∨
  ∃ i route, e = EvSettle i Resolved ∧ inflight st !! i = Some route ∧
             prefetchedRoutes st' = {[route]} ∪ prefetchedRoutes st.
Proof.
  destruct e as [dt | i | i | i outcome | n | a location | returnUrl]; simpl; intros Hstep.
  - left. by simplify_eq.
  - destruct (timers st !! i) as [t |]; simpl in Hstep; [| done].
    destruct (due t <=? now st)%N; [| done]. simplify_eq. left.
    exact (proj1 (passive_run_callback (timer_cb t) (set_timers (delete i) st))).
  - destruct (idle_queue st !! i) as [r |]; simpl in Hstep; [| done].
    simplify_eq. left.
    exact (proj1 (passive_run_callback (idle_cb r) (set_idle_queue (delete i) st))).
  - destruct (inflight st !! i) as [route |] eqn:Hi; simpl in Hstep; [| done].
    simplify_eq. destruct outcome as [| error].
    + right. by exists i, route.
    + by left.
  - left. by simplify_eq.
  - left. simplify_eq. exact (proj1 (passive_usePrefetchRoutes a location st)).
  - left. simplify_eq. exact (proj1 (passive_usePrefetchFromReturnUrl returnUrl st)).
Qed.

Lemma step_invocations_loaded route e st st' :
  step e st = Some st' → route ∈ prefetchedRoutes st →
  route ∈ prefetchedRoutes st' ∧ invocations route st' = invocations route st.
Proof.
  destruct e as [dt | i | i | i outcome | n | a location | returnUrl]; simpl;
    intros Hstep Hin.
  - by simplify_eq.
  - destruct (timers st !! i) as [t |]; simpl in Hstep; [| done].
    destruct (due t <=? now st)%N; [| done]. simplify_eq.
    exact (invocations_passive _ route (set_timers (delete i) st)
             (passive_run_callback (timer_cb t)) Hin).
  - destruct (idle_queue st !! i) as [r |]; simpl in Hstep; [| done].
    simplify_eq.
    exact (invocations_passive _ route (set_idle_queue (delete i) st)
             (passive_run_callback (idle_cb r)) Hin).
  - destruct (inflight st !! i) as [r |]; simpl in Hstep; [| done].
    simplify_eq. destruct outcome as [| error]; simpl; [| done].
    split; [set_solver | done].
  - by simplify_eq.
  - simplify_eq. by apply invocations_passive; [apply passive_usePrefetchRoutes |].
  - simplify_eq. by apply invocations_passive; [apply passive_usePrefetchFromReturnUrl |].
Qed.

Lemma exec_invocations_loaded route es st st' :
  exec es st = Some st' → route ∈ prefetchedRoutes st →
  route ∈ prefetchedRoutes st' ∧ invocations route st' = invocations route st.
Proof.
  revert st. induction es as [| e es IH]; simpl; intros st Hexec Hin.
  - by simplify_eq.
  - destruct (step e st) as [st1 |] eqn:Hstep; simpl in Hexec; [| done].
    destruct (step_invocations_loaded route e st st1 Hstep Hin) as [Hin1 Hn1].
    destruct (IH st1 Hexec Hin1) as [Hin' Hn']. split; [done | congruence].
Qed.

(** C2, as stated, fails: two requests for the cart page made one right
    after the other from a fresh session invoke its loader twice, because
    the first promise is still pending when the second request looks at
    the Loaded Set; both promises then resolve successfully. *)
Lemma two_requests_in_succession_invoke_twice :
  invocations "/cart" (prefetchRoute "/cart" (prefetchRoute "/cart" fresh)) = 2 ∧
  invocations "/cart" (prefetchRoute "/cart" (prefetchRoute "/cart" fresh)) ≠ 1 ∧
  (λ st, (invocations "/cart" st, bool_decide ("/cart" ∈ prefetchedRoutes st), inflight st))
    <$> exec [EvSettle 0 Resolved; EvSettle 0 Resolved]
             (prefetchRoute "/cart" (prefetchRoute "/cart" fresh))
  = Some (2, true, []).
Proof. vm_compute. split; [reflexivity |]. split; [discriminate | reflexivity]. Qed.

(** The same double invocation in a run of the scheduler: a visitor logs
    in, the immediate wave of the authenticated branch fires, and the idle
    callback of the login burst runs before the one the wave queued for
    the cart page. *)
Example login_burst_and_wave_both_load_cart :
  loaderCalls <$>
    exec [ EvRender visitor "/"; EvRender customer "/";
           EvTimer 3; EvIdle 0; EvIdle 1 ] fresh
  = Some ["/cart"; "/wishlist"; "/profile"; "/cart"].
Proof. vm_compute. reflexivity. Qed.

(** C2, amended.  When the promise of the first request has resolved
    before the second request is made, the two requests invoke the loader
    exactly once; and from any state that has the route in the Loaded Set,
    no run of the event loop, nor any further request, invokes the
    route's loader again. *)
Theorem loader_invoked_once_after_success (route : string) :
  (∀ st, route ∉ prefetchedRoutes st → is_Some (routeComponentMap !! route) →
     ∃ st1, step (EvSettle (length (inflight st)) Resolved) (prefetchRoute route st)
              = Some st1 ∧
            route ∈ prefetchedRoutes st1 ∧
            invocations route (prefetchRoute route st1) = S (invocations route st)) ∧
  (∀ st events st', route ∈ prefetchedRoutes st → exec events st = Some st' →
     route ∈ prefetchedRoutes st' ∧
     invocations route st' = invocations route st ∧
     invocations route (prefetchRoute route st') = invocations route st).
Proof.
  split.
  - intros st Hnin Hsome. rewrite prefetchRoute_known by done.
    eexists. split; [apply step_settle_resolved; apply lookup_last |].
    assert (route ∈ prefetchedRoutes
              (onFulfilled route
                 (set_inflight (delete (length (inflight st)))
                    (set_inflight (λ p, p ++ [route])
                       (set_loaderCalls (λ l, l ++ [route]) st))))) as Hin.
    { apply elem_of_union. left. by apply elem_of_singleton. }
    split; [exact Hin |].
    rewrite prefetchRoute_loaded by exact Hin.
    unfold invocations. cbn [loaderCalls onFulfilled set_console set_prefetchedRoutes
      set_inflight set_loaderCalls].
    rewrite count_occ_app. cbn [count_occ].
    destruct (string_dec route route); [lia | done].
  - intros st events st' Hin Hexec.
    destruct (exec_invocations_loaded route events st st' Hexec Hin) as [Hin' Hn].
    repeat split; [done | done |].
    by rewrite prefetchRoute_loaded.
Qed.

Lemma loader_invoked_once_after_success_witness :
  (∃ st1, step (EvSettle 0 Resolved) (prefetchRoute "/cart" fresh) = Some st1 ∧
          "/cart" ∈ prefetchedRoutes st1 ∧
          invocations "/cart" (prefetchRoute "/cart" st1) = 1) ∧
  match exec [EvRender customer "/"; EvTimer 0; EvIdle 1] (onFulfilled "/cart" fresh) with
  | Some st' => invocations "/cart" st' = 0
  | None => False
  end.
Proof.
  split.
  - apply (proj1 (loader_invoked_once_after_success "/cart") fresh).
    + vm_compute. intros H. discriminate H.
    + exists "@/pages/cart-page". vm_compute. reflexivity.
  - destruct (exec [EvRender customer "/"; EvTimer 0; EvIdle 1] (onFulfilled "/cart" fresh))
      as [st' |] eqn:Hexec.
    + assert ("/cart" ∈ prefetchedRoutes (onFulfilled "/cart" fresh)) as Hin
        by (vm_compute; reflexivity).
      destruct (proj2 (loader_invoked_once_after_success "/cart")
                  (onFulfilled "/cart" fresh) _ st' Hin Hexec) as (_ & Hn & _).
      exact Hn.
    + vm_compute in Hexec. discriminate Hexec.
Defined.

Lemma nav_blind_skip : nav_blind skip.
Proof. by intros n st. Qed.

Lemma nav_blind_seq c1 c2 : nav_blind c1 → nav_blind c2 → nav_blind (c1 ;; c2).
Proof. intros H1 H2 n st. unfold seq. by rewrite H1, H2. Qed.

Lemma nav_blind_when b c : nav_blind c → nav_blind (when b c).
Proof. destruct b; [done | intros _; apply nav_blind_skip]. Qed.

Lemma nav_blind_prefetchRoute route : nav_blind (prefetchRoute route).
Proof.
  intros n st. unfold prefetchRoute. cbn [prefetchedRoutes set_nav].
  destruct (bool_decide (route ∈ prefetchedRoutes st)); [reflexivity |].
  destruct (routeComponentMap_get route); reflexivity.
Qed.

Lemma nav_blind_console_log msg : nav_blind (console_log msg).
Proof. intros n st. reflexivity. Qed.

Lemma nav_blind_prefetchWithDelay routes delay : nav_blind (prefetchWithDelay routes delay).
Proof. intros n st. reflexivity. Qed.

Ltac nav_blind_steps :=
  repeat lazymatch goal with
    | |- nav_blind (seq _ _) => apply nav_blind_seq
    | |- nav_blind (when _ _) => apply nav_blind_when
    | |- nav_blind skip => apply nav_blind_skip
    | |- nav_blind (prefetchRoute _) => apply nav_blind_prefetchRoute
    | |- nav_blind (console_log _) => apply nav_blind_console_log
    | |- nav_blind (prefetchWithDelay _ _) => apply nav_blind_prefetchWithDelay
    | |- nav_blind (if ?b then _ else _) => destruct b
    end.

(** Apart from the timer body of a wave, no scheduled closure looks at the
    network. *)
Lemma nav_blind_run_callback cb : is_wave cb = false → nav_blind (run_callback cb).
Proof.
  destruct cb as [routes | route | staff | | returnUrl]; cbn [is_wave run_callback];
    intros Hcb; [discriminate Hcb | | | |]; cbv zeta; nav_blind_steps.
Qed.

(** C3, as stated, fails, in two ways.  With no navigator object at all
    the environment reports neither a data-saver preference nor a slow
    connection, and there is no connection information, yet the gate is
    closed.  And a closed gate does not stop everything: a visitor's first
    wave fires with the gate open and queues its idle callbacks, the
    browser then reports the data-saver preference, and the idle callback
    that runs next still invokes the loader of the login page. *)
Lemma network_gate_not_as_stated :
  (shouldPrefetch (init None true) = false ∧
   reports_saveData (init None true) = false ∧
   reports_slow_connection (init None true) = false ∧
   reported_connection (init None true) = None) ∧
  match exec [EvRender visitor "/"; EvTimer 0; EvNavigator (Some data_saver_on)] fresh with
  | Some st =>
      reports_saveData st = true ∧
      shouldPrefetch st = false ∧
      loaderCalls st = [] ∧
      loaderCalls <$> step (EvIdle 0) st = Some ["/login"]
  | None => False
  end.
Proof. vm_compute. repeat split. Qed.

Lemma includes_slowConnections t :
  JS.includes ["slow-2g"; "2g"] t = bool_decide (Some t = Some "slow-2g" ∨ Some t = Some "2g").
Proof.
  unfold JS.includes. cbn [existsb].
  destruct (String.eqb_spec t "slow-2g") as [Heq1 | Hne1]; cbn [orb].
  - symmetry. apply bool_decide_eq_true_2. left. by rewrite Heq1.
  - destruct (String.eqb_spec t "2g") as [Heq2 | Hne2]; cbn [orb]; symmetry.
    + apply bool_decide_eq_true_2. right. by rewrite Heq2.
    + apply bool_decide_eq_false_2. intros [? | ?]; simplify_eq.
Qed.

Lemma shouldPrefetch_with_navigator st :
  is_Some (nav st) →
  shouldPrefetch st = negb (reports_saveData st || reports_slow_connection st).
Proof.
  intros [n Hn]. unfold shouldPrefetch, reports_saveData, reports_slow_connection,
    reported_connection. rewrite Hn. cbn [mbind option_bind].
  destruct (js_or (js_or (nav_connection n) (nav_mozConnection n)) (nav_webkitConnection n))
    as [[sd et] |]; [| done].
  cbn [saveData effectiveType].
  destruct sd as [[] |], et as [t |]; cbn -[JS.includes bool_decide].
  all: rewrite ?includes_slowConnections.
  all: try (rewrite (bool_decide_eq_true_2 (Some true = Some true)) by done).
  all: try (rewrite (bool_decide_eq_false_2 (Some false = Some true)) by done).
  all: try (rewrite (bool_decide_eq_false_2 (None = Some true)) by done).
  all: try (rewrite (bool_decide_eq_false_2 (None = Some "slow-2g" ∨ None = Some "2g"))
              by (by intros [? | ?])).
  all: cbn [orb negb]; try done.
  all: by destruct (bool_decide _).
Qed.

(** C3, amended.  Where the environment has a navigator object, the gate
    is closed exactly when the reported connection has the data-saver
    preference on or an effective type of slow-2g or 2g, and a navigator
    without connection information leaves it open; without a navigator
    object the gate is closed.  While the gate is closed, and so while the
    data-saver preference is reported, no evaluation of either hook and no
    wave whose timer fires schedules or requests anything, whatever the
    auth state.  The gate is looked at nowhere else: every other scheduled
    closure, once queued, does the same whatever the network reports. *)
Theorem network_gate (st : state) :
  (is_Some (nav st) →
     shouldPrefetch st = negb (reports_saveData st || reports_slow_connection st)) ∧
  (is_Some (nav st) → reported_connection st = None → shouldPrefetch st = true) ∧
  (nav st = None → shouldPrefetch st = false) ∧
  (shouldPrefetch st = false →
     ∀ a location returnUrl routes,
       usePrefetchRoutes a location st = st ∧
       usePrefetchFromReturnUrl returnUrl st = st ∧
       run_callback (CbWave routes) st = st) ∧
  (reports_saveData st = true →
     shouldPrefetch st = false ∧
     ∀ a location returnUrl routes,
       usePrefetchRoutes a location st = st ∧
       usePrefetchFromReturnUrl returnUrl st = st ∧
       run_callback (CbWave routes) st = st) ∧
  (∀ cb n, is_wave cb = false →
     run_callback cb (set_nav n st) = set_nav n (run_callback cb st)).
Proof.
  assert (shouldPrefetch st = false →
          ∀ a location returnUrl routes,
            usePrefetchRoutes a location st = st ∧
            usePrefetchFromReturnUrl returnUrl st = st ∧
            run_callback (CbWave routes) st = st) as Hclosed.
  { intros Hgate a location returnUrl routes. split; [| split].
    - apply usePrefetchRoutes_closed. by right.
    - unfold usePrefetchFromReturnUrl. by rewrite Hgate.
    - cbn [run_callback]. by rewrite Hgate. }
  split; [apply shouldPrefetch_with_navigator |].
  split; [| split; [| split; [| split]]].
  - intros Hnav Hnone. rewrite shouldPrefetch_with_navigator by done.
    unfold reports_saveData, reports_slow_connection. by rewrite Hnone.
  - intros Hnone. unfold shouldPrefetch. by rewrite Hnone.
  - exact Hclosed.
  - intros Hsave.
    assert (shouldPrefetch st = false) as Hgate.
    { destruct (nav st) as [n |] eqn:Hn.
      - rewrite shouldPrefetch_with_navigator by (by rewrite Hn). by rewrite Hsave.
      - unfold shouldPrefetch. by rewrite Hn. }
    split; [exact Hgate | by apply Hclosed].
  - intros cb n Hcb. by apply nav_blind_run_callback.
Qed.

Lemma network_gate_witness :
  shouldPrefetch (init (Some data_saver_on) true) = false ∧
  shouldPrefetch fresh = true ∧
  shouldPrefetch (init None true) = false ∧
  usePrefetchRoutes staff_member "/admin" (init (Some data_saver_on) true)
    = init (Some data_saver_on) true ∧
  run_callback (CbPrefetch "/login") (set_nav (Some data_saver_on) fresh)
    = set_nav (Some data_saver_on) (run_callback (CbPrefetch "/login") fresh).
Proof.
  split; [| split; [| split; [| split]]].
  - apply (proj1 (network_gate (init (Some data_saver_on) true))).
    exists data_saver_on. reflexivity.
  - apply (proj1 (proj2 (network_gate fresh))).
    + exists no_connection_info. reflexivity.
    + reflexivity.
  - apply (proj1 (proj2 (proj2 (network_gate (init None true))))). reflexivity.
  - destruct (proj1 (proj2 (proj2 (proj2 (proj2
                (network_gate (init (Some data_saver_on) true))))))
                eq_refl) as [_ Hnothing].
    apply (Hnothing staff_member "/admin" None []).
  - apply (proj2 (proj2 (proj2 (proj2 (proj2 (network_gate fresh)))))
             (CbPrefetch "/login") (Some data_saver_on)).
    reflexivity.
Defined.

(** ** Waves *)

Lemma waves_of_wave_timers st waves :
  omap wave_of (wave_timers st waves) = map (λ w, ((now st + w.1)%N, w.2)) waves.
Proof.
  unfold wave_timers.
  induction waves as [| [d rs] ws IH]; [done |].
  rewrite !map_cons. change (omap wave_of (?t :: ?ts)) with
    (match wave_of t with Some w => w :: omap wave_of ts | None => omap wave_of ts end).
  by rewrite IH.
Qed.

Lemma waves_of_fallback_bursts st login admin staff :
  omap wave_of (fallback_timers_of st (bursts login admin staff)) = [].
Proof.
  unfold fallback_timers_of, bursts.
  by destruct (hasRequestIdleCallback st), login, admin.
Qed.

(** A wave whose timer fires while the gate is closed does nothing. *)
Lemma run_wave_closed routes st :
  shouldPrefetch st = false → run_callback (CbWave routes) st = st.
Proof. intros Hgate. simpl. by rewrite Hgate. Qed.

Lemma dispatch_each routes st :
  let st' := forEach routes
               (λ route, safeRequestIdleCallback (CbPrefetch route) (Some 2000%N)) st in
  idle_queue st' = idle_queue st ++ idle_requests_of st (Some 2000%N) (map CbPrefetch routes) ∧
  timers st' = timers st ++ fallback_timers_of st (map CbPrefetch routes) ∧
  prefetchedRoutes st' = prefetchedRoutes st ∧
  loaderCalls st' = loaderCalls st ∧
  inflight st' = inflight st ∧
  console st' = console st ∧
  previousAuthState st' = previousAuthState st ∧
  nav st' = nav st ∧ now st' = now st ∧
  hasRequestIdleCallback st' = hasRequestIdleCallback st.
Proof.
  revert st. induction routes as [| r rs IH]; intros st.
  - simpl. unfold skip, idle_requests_of, fallback_timers_of.
    destruct (hasRequestIdleCallback st); simpl; by rewrite !app_nil_r.
  - simpl. unfold seq.
    specialize (IH (safeRequestIdleCallback (CbPrefetch r) (Some 2000%N) st)).
    simpl in IH. destruct IH as (-> & -> & -> & -> & -> & -> & -> & -> & -> & ->).
    unfold safeRequestIdleCallback, idle_requests_of, fallback_timers_of,
      requestIdleCallback, setTimeout.
    destruct (hasRequestIdleCallback st) eqn:Hric; simpl; rewrite ?Hric; simpl;
      rewrite <- ?app_assoc, ?app_nil_r; done.
Qed.

(** A wave whose timer fires while the gate is open hands each of its
    routes to the idle scheduler, with a timeout of two seconds. *)
Lemma run_wave_open routes st :
  shouldPrefetch st = true →
  let st' := run_callback (CbWave routes) st in
  idle_queue st' = idle_queue st ++ idle_requests_of st (Some 2000%N) (map CbPrefetch routes) ∧
  timers st' = timers st ++ fallback_timers_of st (map CbPrefetch routes) ∧
  prefetchedRoutes st' = prefetchedRoutes st ∧
  loaderCalls st' = loaderCalls st ∧
  inflight st' = inflight st ∧
  console st' = console st.
Proof.
  intros Hgate. simpl. rewrite Hgate.
  pose proof (dispatch_each routes st) as H. simpl in H. tauto.
Qed.

(** C4. An evaluation that passes the initialization gate and the network
    gate sets these wave timers, and no others: for a visitor, login and
    register at once, catalog and products after 1000 ms, the privacy
    policy after 5000 ms; for an authenticated user, catalog, cart,
    wishlist and products at once, profile and checkout after 3000 ms, the
    privacy policy after 5000 ms, and the seven admin routes after 7000 ms
    if and only if the user is staff. *)
Theorem waves_by_auth_state (a : auth) (location : string) (st : state) :
  authInitialized a = true → shouldPrefetch st = true →
  let st' := usePrefetchRoutes a location st in
  let at_delay (d : N) := (now st + d)%N in
  (isAuthenticated a = false →
     scheduled_waves st' =
       scheduled_waves st ++
         [ (at_delay 0%N, ["/login"; "/register"]);
           (at_delay 1000%N, ["/catalog"; "/products"]);
           (at_delay 5000%N, ["/privacy-policy"]) ]) ∧
  (isAuthenticated a = true → is_staff a = false →
     scheduled_waves st' =
       scheduled_waves st ++
         [ (at_delay 0%N, ["/catalog"; "/cart"; "/wishlist"; "/products"]);
           (at_delay 3000%N, ["/profile"; "/checkout"]);
           (at_delay 5000%N, ["/privacy-policy"]) ]) ∧
  (isAuthenticated a = true → is_staff a = true →
     scheduled_waves st' =
       scheduled_waves st ++
         [ (at_delay 0%N, ["/catalog"; "/cart"; "/wishlist"; "/products"]);
           (at_delay 3000%N, ["/profile"; "/checkout"]);
           (at_delay 5000%N, ["/privacy-policy"]);
           (at_delay 7000%N,
             [ "/admin"; "/admin/products"; "/admin/categories"; "/admin/orders";
               "/admin/promocodes"; "/admin/users"; "/admin/support" ]) ]).
Proof.
  intros Hinit Hgate st' at_delay.
  destruct (usePrefetchRoutes_open a location st Hinit Hgate) as (Htimers & _).
  assert (scheduled_waves st' =
            scheduled_waves st ++
              map (λ w, ((now st + w.1)%N, w.2))
                  (specified_waves (isAuthenticated a) (is_staff a))) as Hwaves.
  { unfold scheduled_waves, st'. rewrite Htimers, !omap_app.
    by rewrite waves_of_wave_timers, waves_of_fallback_bursts, app_nil_r. }
  rewrite Hwaves. repeat split.
  - by intros ->.
  - by intros -> ->.
  - by intros -> ->.
Qed.

Lemma waves_by_auth_state_witness :
  scheduled_waves (usePrefetchRoutes visitor "/" fresh) =
    [ (0%N, ["/login"; "/register"]);
      (1000%N, ["/catalog"; "/products"]);
      (5000%N, ["/privacy-policy"]) ] ∧
  scheduled_waves (usePrefetchRoutes customer "/" fresh) =
    [ (0%N, ["/catalog"; "/cart"; "/wishlist"; "/products"]);
      (3000%N, ["/profile"; "/checkout"]);
      (5000%N, ["/privacy-policy"]) ] ∧
  scheduled_waves (usePrefetchRoutes staff_member "/" fresh) =
    [ (0%N, ["/catalog"; "/cart"; "/wishlist"; "/products"]);
      (3000%N, ["/profile"; "/checkout"]);
      (5000%N, ["/privacy-policy"]);
      (7000%N, adminRoutes) ].
Proof.
  split; [| split].
  - apply (waves_by_auth_state visitor "/" fresh); reflexivity.
  - apply (waves_by_auth_state customer "/" fresh); reflexivity.
  - apply (waves_by_auth_state staff_member "/" fresh); reflexivity.
Defined.

(** ** Bursts *)

Lemma run_login_burst_unfold staff st :
  run_callback (CbLoginBurst staff) st =
    when staff
      (console_log "👤 Staff user detected, preloading admin routes..." ;;
       prefetchWithDelay adminRoutes 1000%N)
      (forEach ["/cart"; "/wishlist"; "/profile"] prefetchRoute st).
Proof. cbn [run_callback forEach]. unfold adminRoutes, seq, skip. reflexivity. Qed.

Lemma run_admin_burst_unfold st :
  run_callback CbAdminBurst st = forEach adminRoutes prefetchRoute st.
Proof. unfold adminRoutes. cbn [run_callback forEach]. unfold seq, skip. reflexivity. Qed.

Lemma run_login_burst staff st :
  let st' := run_callback (CbLoginBurst staff) st in
  loaderCalls st' =
    loaderCalls st ++ loadable (prefetchedRoutes st) ["/cart"; "/wishlist"; "/profile"] ∧
  inflight st' =
    inflight st ++ loadable (prefetchedRoutes st) ["/cart"; "/wishlist"; "/profile"] ∧
  timers st' =
    timers st ++
      (if staff then [{| due := (now st + 1000)%N; timer_cb := CbWave adminRoutes |}] else []) ∧
  idle_queue st' = idle_queue st ∧
  prefetchedRoutes st' = prefetchedRoutes st.
Proof.
  cbv zeta. rewrite run_login_burst_unfold.
  pose proof (requests_frame ["/cart"; "/wishlist"; "/profile"] st) as Hf.
  pose proof (requests_loaderCalls ["/cart"; "/wishlist"; "/profile"] st) as Hl.
  pose proof (requests_inflight ["/cart"; "/wishlist"; "/profile"] st) as Hi.
  cbv zeta in Hf. destruct Hf as (Hs & _ & _ & _ & Hnow & Ht & Hq).
  set (st1 := forEach ["/cart"; "/wishlist"; "/profile"] prefetchRoute st) in *.
  clearbody st1. destruct st1.
  cbn [loaderCalls inflight prefetchedRoutes now timers idle_queue] in *. subst.
  destruct staff; cbn -[N.add loadable]; rewrite ?app_nil_r; repeat split; reflexivity.
Qed.

Lemma run_admin_burst st :
  let st' := run_callback CbAdminBurst st in
  loaderCalls st' = loaderCalls st ++ loadable (prefetchedRoutes st) adminRoutes ∧
  inflight st' = inflight st ++ loadable (prefetchedRoutes st) adminRoutes ∧
  timers st' = timers st ∧
  idle_queue st' = idle_queue st ∧
  prefetchedRoutes st' = prefetchedRoutes st.
Proof.
  cbv zeta. rewrite run_admin_burst_unfold.
  pose proof (requests_frame adminRoutes st) as Hf.
  cbv zeta in Hf. destruct Hf as (Hs & _ & _ & _ & _ & Ht & Hq).
  rewrite requests_loaderCalls, requests_inflight. repeat split; assumption.
Qed.

(** C5, as stated, fails: a visitor was recorded, the browser then turns
    the data-saver preference on, and a staff member logs in.  The
    evaluation that sees the login is stopped by the network gate and
    dispatches nothing. *)
Lemma login_transition_stopped_by_gate :
  match exec [EvRender visitor "/"; EvNavigator (Some data_saver_on)] fresh with
  | Some st =>
      previousAuthState st = Some false ∧
      isAuthenticated staff_member = true ∧
      is_staff staff_member = true ∧
      usePrefetchRoutes staff_member "/" st = st ∧
      idle_queue st = [] ∧
      map timer_cb (timers st) =
        [ CbWave ["/login"; "/register"]; CbWave ["/catalog"; "/products"];
          CbWave ["/privacy-policy"] ]
  | None => False
  end.
Proof. vm_compute. repeat split. Qed.

(** C5, amended.  An evaluation that passes the initialization gate and
    the network gate, and for which the previous evaluation recorded a
    visitor while the user is now authenticated, hands one callback to the
    idle scheduler (to a timer of one millisecond where the host has no
    idle scheduling), without a timeout and whatever the location.  When
    that callback runs it requests cart, wishlist and profile right away
    and, for a staff member, sets a timer of 1000 ms for the wave of the
    seven admin routes. *)
Theorem login_transition_burst (a : auth) (location : string) (st : state) :
  authInitialized a = true → shouldPrefetch st = true →
  previousAuthState st = Some false → isAuthenticated a = true →
  let st' := usePrefetchRoutes a location st in
  let burst := CbLoginBurst (is_staff a) in
  let others := if admin_page_condition a location st then [CbAdminBurst] else [] in
  idle_queue st' = idle_queue st ++ idle_requests_of st None (burst :: others) ∧
  scheduled_waves st' =
    scheduled_waves st ++
      map (λ w, ((now st + w.1)%N, w.2)) (specified_waves true (is_staff a)) ∧
  (hasRequestIdleCallback st = false →
     ∃ waves, timers st' =
       timers st ++ waves ++
         map (λ cb, {| due := (now st + 1)%N; timer_cb := cb |}) (burst :: others)) ∧
  ∀ st2,
    let st3 := run_callback burst st2 in
    st3 = when (is_staff a)
            (console_log "👤 Staff user detected, preloading admin routes..." ;;
             prefetchWithDelay adminRoutes 1000%N)
            (forEach ["/cart"; "/wishlist"; "/profile"] prefetchRoute st2) ∧
    loaderCalls st3 =
      loaderCalls st2 ++ loadable (prefetchedRoutes st2) ["/cart"; "/wishlist"; "/profile"] ∧
    timers st3 =
      timers st2 ++
        (if is_staff a
         then [{| due := (now st2 + 1000)%N; timer_cb := CbWave adminRoutes |}]
         else []) ∧
    idle_queue st3 = idle_queue st2.
Proof.
  intros Hinit Hgate Hprev Hauth st' burst others.
  destruct (usePrefetchRoutes_open a location st Hinit Hgate) as (Htimers & Hidle & _).
  assert (login_transition a st = true) as Hlogin.
  { unfold login_transition. rewrite Hauth, andb_true_r.
    by apply bool_decide_eq_true_2. }
  rewrite Hlogin in Htimers, Hidle.
  assert (bursts true (admin_page_condition a location st) (is_staff a) = burst :: others)
    as Hbursts by reflexivity.
  rewrite Hbursts in Htimers, Hidle. rewrite Hauth in Htimers.
  split; [exact Hidle |]. split; [| split].
  - unfold scheduled_waves, st'. rewrite Htimers, !omap_app, waves_of_wave_timers.
    assert (omap wave_of (fallback_timers_of st (burst :: others)) = []) as ->.
    { rewrite <- Hbursts. apply waves_of_fallback_bursts. }
    by rewrite app_nil_r.
  - intros Hric. eexists. unfold st'. rewrite Htimers.
    unfold fallback_timers_of. rewrite Hric. reflexivity.
  - intros st2 st3.
    destruct (run_login_burst (is_staff a) st2) as (Hl & _ & Ht & Hq & _).
    split; [apply run_login_burst_unfold |].
    split; [exact Hl |]. split; [exact Ht | exact Hq].
Qed.

Lemma login_transition_burst_witness :
  idle_queue (usePrefetchRoutes staff_member "/"
                (set_previousAuthState (Some false) fresh)) =
    [{| idle_timeout := None; idle_cb := CbLoginBurst true |}] ∧
  loaderCalls (run_callback (CbLoginBurst true) fresh) = ["/cart"; "/wishlist"; "/profile"] ∧
  timers (run_callback (CbLoginBurst true) fresh) =
    [{| due := 1000%N; timer_cb := CbWave adminRoutes |}].
Proof.
  destruct (login_transition_burst staff_member "/"
              (set_previousAuthState (Some false) fresh)
              eq_refl eq_refl eq_refl eq_refl) as (Hq & _ & _ & Hrun).
  split; [exact Hq |].
  destruct (Hrun fresh) as (_ & Hl & Ht & _).
  split.
  - etransitivity; [exact Hl | vm_compute; reflexivity].
  - exact Ht.
Defined.

(** C6, as stated, fails: a staff member opens an admin page whose bundle
    is not loaded while the browser reports the data-saver preference.
    The evaluation is stopped by the network gate and dispatches nothing. *)
Lemma admin_page_burst_stopped_by_gate :
  JS.startsWith "/admin/orders" "/admin" = true ∧
  is_staff staff_member = true ∧
  ("/admin" ∉ prefetchedRoutes (init (Some data_saver_on) true)) ∧
  usePrefetchRoutes staff_member "/admin/orders" (init (Some data_saver_on) true)
    = init (Some data_saver_on) true ∧
  idle_queue (init (Some data_saver_on) true) = [] ∧
  timers (init (Some data_saver_on) true) = [].
Proof.
  split; [reflexivity |]. split; [reflexivity |].
  split; [vm_compute; intros H; discriminate H |].
  split; [vm_compute; reflexivity |]. split; reflexivity.
Qed.

(** C6, amended.  An evaluation that passes the initialization gate and
    the network gate, with the location starting with the admin prefix,
    a staff user, and the admin dashboard not in the Loaded Set, hands one
    callback to the idle scheduler (to a timer of one millisecond where the
    host has no idle scheduling), without a timeout.  When that callback
    runs it requests the seven admin routes at once: it sets no timer and
    queues no further idle callback. *)
Theorem admin_page_burst (a : auth) (location : string) (st : state) :
  authInitialized a = true → shouldPrefetch st = true →
  JS.startsWith location "/admin" = true → is_staff a = true →
  "/admin" ∉ prefetchedRoutes st →
  let st' := usePrefetchRoutes a location st in
  let before := if login_transition a st then [CbLoginBurst true] else [] in
  idle_queue st' = idle_queue st ++ idle_requests_of st None (before ++ [CbAdminBurst]) ∧
  (hasRequestIdleCallback st = false →
     ∃ waves, timers st' =
       timers st ++ waves ++
         map (λ cb, {| due := (now st + 1)%N; timer_cb := cb |}) (before ++ [CbAdminBurst])) ∧
  ∀ st2,
    let st3 := run_callback CbAdminBurst st2 in
    st3 = forEach adminRoutes prefetchRoute st2 ∧
    loaderCalls st3 = loaderCalls st2 ++ loadable (prefetchedRoutes st2) adminRoutes ∧
    timers st3 = timers st2 ∧
    idle_queue st3 = idle_queue st2.
Proof.
  intros Hinit Hgate Hloc Hstaff Hadmin st' before.
  destruct (usePrefetchRoutes_open a location st Hinit Hgate) as (Htimers & Hidle & _).
  assert (admin_page_condition a location st = true) as Hcond.
  { unfold admin_page_condition. rewrite Hloc, Hstaff.
    by rewrite bool_decide_eq_false_2. }
  rewrite Hcond, Hstaff in Htimers, Hidle.
  assert (bursts (login_transition a st) true true = before ++ [CbAdminBurst])
    as Hbursts by reflexivity.
  rewrite Hbursts in Htimers, Hidle.
  split; [exact Hidle |]. split.
  - intros Hric. eexists. unfold st'. rewrite Htimers.
    unfold fallback_timers_of. rewrite Hric. reflexivity.
  - intros st2 st3.
    destruct (run_admin_burst st2) as (Hl & _ & Ht & Hq & _).
    split; [apply run_admin_burst_unfold |].
    split; [exact Hl |]. split; [exact Ht | exact Hq].
Qed.

Lemma admin_page_burst_witness :
  idle_queue (usePrefetchRoutes staff_member "/admin/orders" fresh) =
    [{| idle_timeout := None; idle_cb := CbAdminBurst |}] ∧
  loaderCalls (run_callback CbAdminBurst fresh) = adminRoutes ∧
  timers (run_callback CbAdminBurst fresh) = [].
Proof.
  assert ("/admin" ∉ prefetchedRoutes fresh) as Hadmin
    by (vm_compute; intros H; discriminate H).
  destruct (admin_page_burst staff_member "/admin/orders" fresh
              eq_refl eq_refl eq_refl eq_refl Hadmin) as (Hq & _ & Hrun).
  split; [exact Hq |].
  destruct (Hrun fresh) as (_ & Hl & Ht & _).
  split.
  - etransitivity; [exact Hl | vm_compute; reflexivity].
  - exact Ht.
Defined.

(** C9, as stated, fails: an evaluation made before the auth store is
    initialized returns at the gate and leaves the Previous Auth State
    unset instead of recording the flag it saw. *)
Lemma previous_state_not_recorded_at_gate :
  isAuthenticated booting = false ∧
  previousAuthState (usePrefetchRoutes booting "/" fresh) = None ∧
  previousAuthState (usePrefetchRoutes booting "/" fresh) ≠ Some (isAuthenticated booting).
Proof. vm_compute. repeat split. intros H. discriminate H. Qed.

(** C9, amended.  An evaluation that passes the initialization gate and
    the network gate ends by recording the current authentication flag, so
    the next evaluation detects a login exactly when this one saw a visitor
    and the next one sees an authenticated user.  An evaluation stopped at
    a gate leaves the record as it was. *)
Theorem previous_auth_state_recorded (a : auth) (location : string) (st : state) :
  (authInitialized a = true → shouldPrefetch st = true →
     previousAuthState (usePrefetchRoutes a location st) = Some (isAuthenticated a) ∧
     ∀ a', login_transition a' (usePrefetchRoutes a location st)
             = negb (isAuthenticated a) && isAuthenticated a') ∧
  ((authInitialized a = false ∨ shouldPrefetch st = false) →
     previousAuthState (usePrefetchRoutes a location st) = previousAuthState st).
Proof.
  split.
  - intros Hinit Hgate.
    destruct (usePrefetchRoutes_open a location st Hinit Hgate) as (_ & _ & Hprev & _).
    split; [exact Hprev |].
    intros a'. unfold login_transition. rewrite Hprev.
    destruct (isAuthenticated a); reflexivity.
  - intros Hclosed. by rewrite usePrefetchRoutes_closed.
Qed.

Lemma previous_auth_state_recorded_witness :
  previousAuthState (usePrefetchRoutes visitor "/" fresh) = Some false ∧
  login_transition customer (usePrefetchRoutes visitor "/" fresh) = true ∧
  previousAuthState (usePrefetchRoutes booting "/" fresh) = None.
Proof.
  destruct (previous_auth_state_recorded visitor "/" fresh) as (Hopen & _).
  destruct (Hopen eq_refl eq_refl) as (Hprev & Hnext).
  split; [exact Hprev |]. split; [exact (Hnext customer) |].
  apply (previous_auth_state_recorded booting "/" fresh). left. reflexivity.
Defined.

(** C10. When the timer of a wave fires, the network gate is evaluated in
    the state of that moment.  If it is closed the timer is consumed and
    nothing else happens: no idle callback is queued for any route of the
    wave, no loader is invoked, and this holds although the gate was open
    when [prefetchWithDelay] set the timer.  If it is open every route of
    the wave is handed to the idle scheduler. *)
Theorem delayed_wave_rechecks_gate (routes : list string) (delay : N) (st : state) :
  let st1 := prefetchWithDelay routes delay st in
  let wave := {| due := (now st + delay)%N; timer_cb := CbWave routes |} in
  timers st1 = timers st ++ [wave] ∧
  ∀ st2 i,
    timers st2 !! i = Some wave → (now st + delay ≤ now st2)%N →
    (shouldPrefetch st2 = false →
       step (EvTimer i) st2 = Some (set_timers (delete i) st2)) ∧
    (shouldPrefetch st2 = true →
       ∃ st3, step (EvTimer i) st2 = Some st3 ∧
         idle_queue st3 =
           idle_queue st2 ++ idle_requests_of st2 (Some 2000%N) (map CbPrefetch routes) ∧
         timers st3 =
           delete i (timers st2) ++ fallback_timers_of st2 (map CbPrefetch routes) ∧
         loaderCalls st3 = loaderCalls st2).
Proof.
  intros st1 wave. split; [reflexivity |].
  intros st2 i Hi Hdue.
  assert (step (EvTimer i) st2 =
            Some (run_callback (CbWave routes) (set_timers (delete i) st2))) as Hstep.
  { cbn [step]. rewrite Hi. cbn [mbind option_bind due timer_cb wave].
    by rewrite (proj2 (N.leb_le _ _) Hdue). }
  split.
  - intros Hgate. rewrite Hstep. f_equal. by apply run_wave_closed.
  - intros Hgate. eexists. split; [exact Hstep |].
    destruct (run_wave_open routes (set_timers (delete i) st2) Hgate)
      as (Hq & Ht & _ & Hl & _).
    split; [exact Hq |]. split; [exact Ht | exact Hl].
Qed.

Lemma delayed_wave_rechecks_gate_witness :
  shouldPrefetch fresh = true ∧
  match exec [EvRender visitor "/"; EvNavigator (Some data_saver_on)] fresh with
  | Some st2 =>
      shouldPrefetch st2 = false ∧
      step (EvTimer 0) st2 = Some (set_timers (delete 0) st2) ∧
      idle_queue (set_timers (delete 0) st2) = []
  | None => False
  end.
Proof.
  split; [reflexivity |].
  destruct (exec [EvRender visitor "/"; EvNavigator (Some data_saver_on)] fresh)
    as [st2 |] eqn:Hexec; [| vm_compute in Hexec; discriminate Hexec].
  vm_compute in Hexec. injection Hexec as <-.
  split; [reflexivity |]. split; [| reflexivity].
  apply (proj2 (delayed_wave_rechecks_gate ["/login"; "/register"] 0%N fresh)).
  - reflexivity.
  - vm_compute. intros H. discriminate H.
  - reflexivity.
Defined.

(** ** Return URLs *)

Lemma split_nonempty sep s : ∃ piece pieces, JS.split sep s = piece :: pieces.
Proof.
  induction s as [| c rest (piece & pieces & IH)]; simpl; [by eauto |].
  destruct (Ascii.eqb c sep); [by eauto |]. rewrite IH. by eauto.
Qed.

Lemma split_head sep c rest :
  default EmptyString (JS.index (JS.split sep (String c rest)) 0) =
    if Ascii.eqb c sep then EmptyString
    else String c (default EmptyString (JS.index (JS.split sep rest) 0)).
Proof.
  simpl. destruct (Ascii.eqb c sep); [done |].
  by destruct (split_nonempty sep rest) as (piece & pieces & ->).
Qed.

(** Cutting at the first question mark and then at the first hash sign
    removes exactly the query or fragment suffix. *)
Lemma normalizedUrl_strip_suffix returnUrl :
  default EmptyString
    (JS.index (JS.split "#"
       (default EmptyString (JS.index (JS.split "?" returnUrl) 0))) 0)
  = strip_suffix returnUrl.
Proof.
  induction returnUrl as [| c rest IH]; [done |].
  rewrite split_head. cbn [strip_suffix].
  destruct (Ascii.eqb c "?"); [done |].
  rewrite split_head. cbn [orb].
  destruct (Ascii.eqb c "#"); [done |]. by rewrite IH.
Qed.

Lemma join_cons sep piece piece' pieces :
  join sep (piece :: piece' :: pieces) = piece +:+ String sep (join sep (piece' :: pieces)).
Proof. reflexivity. Qed.

Lemma join_split sep s : join sep (JS.split sep s) = s.
Proof.
  induction s as [| c rest IH]; [done |]. cbn [JS.split].
  destruct (split_nonempty sep rest) as (piece & pieces & Hsplit).
  rewrite Hsplit in IH |- *.
  destruct (Ascii.eqb_spec c sep) as [-> | Hne].
  - by rewrite join_cons, IH.
  - destruct pieces as [| piece' pieces].
    + cbn [join] in IH |- *. by rewrite IH.
    + rewrite join_cons in IH |- *. rewrite <- IH. reflexivity.
Qed.

Lemma split_pieces_free sep s piece :
  piece ∈ JS.split sep s → occurs sep piece = false.
Proof.
  revert piece. induction s as [| c rest IH]; intros piece; simpl.
  - intros ->%list_elem_of_singleton. done.
  - destruct (Ascii.eqb c sep) eqn:Hc.
    + intros [-> | Hin]%elem_of_cons; [done | by apply IH].
    + destruct (split_nonempty sep rest) as (piece' & pieces & Hsplit).
      rewrite Hsplit in IH |- *.
      intros [-> | Hin]%elem_of_cons.
      * simpl. rewrite Hc. apply IH. by left.
      * apply IH. by right.
Qed.

Lemma run_return_url returnUrl st :
  run_callback (CbReturnUrl returnUrl) st =
    match returnUrl_target returnUrl with
    | Some route => prefetchRoute route st
    | None => st
    end.
Proof.
  cbn [run_callback]. rewrite normalizedUrl_strip_suffix.
  unfold returnUrl_target, JS.startsWith, skip.
  set (path := strip_suffix returnUrl).
  destruct (String.prefix "/cart" path); [reflexivity |].
  destruct (String.prefix "/wishlist" path); [reflexivity |].
  destruct (String.prefix "/profile" path); [reflexivity |].
  destruct (String.prefix "/checkout" path); [reflexivity |].
  destruct (String.prefix "/admin" path); [| reflexivity].
  subst path.
  destruct (JS.split "/" (strip_suffix returnUrl)) as [| a [| b [| c [| d rest]]]];
    reflexivity.
Qed.

Lemma prefix_before_separator sep p b tail :
  occurs sep p = false →
  String.prefix p (b +:+ String sep tail) = true → String.prefix p b = true.
Proof.
  revert b. induction p as [| a p IH]; intros b Hfree Hpre; [by destruct b |].
  simpl in Hfree. apply orb_false_elim in Hfree as [Ha Hp].
  destruct b as [| x b]; simpl in *.
  - destruct (ascii_dec a sep) as [-> | Hne]; [| done].
    by rewrite Ascii.eqb_refl in Ha.
  - destruct (ascii_dec a x); [by apply IH | done].
Qed.

(** The shape of a resolved return URL: one of the five fixed routes, a
    prefix of the stripped URL; or the admin prefix followed by the second
    path segment of a stripped URL that has exactly two segments, the first
    of which begins with the admin prefix. *)
Lemma returnUrl_target_shape returnUrl route :
  returnUrl_target returnUrl = Some route →
  (route ∈ ["/cart"; "/wishlist"; "/profile"; "/checkout"; "/admin"] ∧
   String.prefix route (strip_suffix returnUrl) = true) ∨
  (∃ first segment,
     strip_suffix returnUrl = String "/" (first +:+ String "/" segment) ∧
     String.prefix "admin" first = true ∧
     occurs "/" first = false ∧ occurs "/" segment = false ∧
     route = "/admin/" +:+ segment).
Proof.
  unfold returnUrl_target. set (path := strip_suffix returnUrl).
  destruct (String.prefix "/cart" path) eqn:H1.
  { intros [= <-]. left. split; [set_solver | done]. }
  destruct (String.prefix "/wishlist" path) eqn:H2.
  { intros [= <-]. left. split; [set_solver | done]. }
  destruct (String.prefix "/profile" path) eqn:H3.
  { intros [= <-]. left. split; [set_solver | done]. }
  destruct (String.prefix "/checkout" path) eqn:H4.
  { intros [= <-]. left. split; [set_solver | done]. }
  destruct (String.prefix "/admin" path) eqn:H5; [| done].
  destruct (JS.split "/" path) as [| a [| b [| c [| d rest]]]] eqn:Hsplit; try done.
  { intros [= <-]. left. split; [set_solver | done]. }
  intros [= <-]. right.
  pose proof (join_split "/" path) as Hjoin. rewrite Hsplit in Hjoin.
  rewrite !join_cons in Hjoin. cbn [join] in Hjoin.
  assert (occurs "/" b = false) as Hb.
  { apply (split_pieces_free "/" path). rewrite Hsplit. set_solver. }
  assert (occurs "/" c = false) as Hc.
  { apply (split_pieces_free "/" path). rewrite Hsplit. set_solver. }
  destruct path as [| x path']; [done |].
  change (String.prefix "/admin" (String x path')) with
    (if ascii_dec "/" x then String.prefix "admin" path' else false) in H5.
  destruct (ascii_dec "/" x) as [<- | ?]; [| done].
  cbn [JS.split] in Hsplit. rewrite Ascii.eqb_refl in Hsplit.
  injection Hsplit as <- Hsplit'.
  change (String "/" (b +:+ String "/" c) = String "/" path') in Hjoin.
  injection Hjoin as Hjoin.
  exists b, c. rewrite <- Hjoin. split; [done |]. split; [| done].
  apply (prefix_before_separator "/" "admin" b c); [done |]. by rewrite Hjoin.
Qed.

Lemma usePrefetchFromReturnUrl_open returnUrl st :
  shouldPrefetch st = true → returnUrl ≠ EmptyString →
  let st' := usePrefetchFromReturnUrl (Some returnUrl) st in
  idle_queue st' = idle_queue st ++ idle_requests_of st (Some 500%N) [CbReturnUrl returnUrl] ∧
  timers st' = timers st ++ fallback_timers_of st [CbReturnUrl returnUrl] ∧
  loaderCalls st' = loaderCalls st ∧
  inflight st' = inflight st ∧
  prefetchedRoutes st' = prefetchedRoutes st.
Proof.
  intros Hgate Hne. unfold usePrefetchFromReturnUrl. rewrite Hgate. cbn [negb].
  rewrite (proj2 (String.eqb_neq returnUrl EmptyString) Hne). cbn [negb].
  unfold idle_requests_of, fallback_timers_of.
  destruct st as [loaded prev nv ric clock ts iq infl calls cons thrown].
  destruct ric; cbn -[N.add String.append]; rewrite ?app_nil_r; repeat split; reflexivity.
Qed.

(** C7, as stated, fails: with the data-saver preference reported the hook
    returns at its gate, and for the documented return URL nothing is
    queued and no route is requested. *)
Lemma return_url_stopped_by_gate :
  reports_saveData (init (Some data_saver_on) true) = true ∧
  shouldPrefetch (init (Some data_saver_on) true) = false ∧
  usePrefetchFromReturnUrl (Some "/admin/users?x=1") (init (Some data_saver_on) true)
    = init (Some data_saver_on) true ∧
  idle_queue (init (Some data_saver_on) true) = [] ∧
  timers (init (Some data_saver_on) true) = [].
Proof. vm_compute. repeat split. Qed.

(** C7, amended.  With the network gate open and the parameter present and
    not empty, the hook hands exactly one callback to the idle scheduler,
    with a timeout of 500 ms (to a timer of one millisecond where the host
    has no idle scheduling); with the gate closed, or without the
    parameter, it does nothing.  The idle callback makes at most one
    request, for the route the specification describes: the return URL is
    cut at the first question mark or hash sign, and the result is matched
    by prefix against cart, wishlist, profile, checkout and the admin
    prefix, the last one alone or followed by exactly one path segment.
    The three documented return URLs resolve as documented. *)
Theorem return_url_prefetcher :
  (∀ returnUrl st,
     run_callback (CbReturnUrl returnUrl) st =
       match returnUrl_target returnUrl with
       | Some route => prefetchRoute route st
       | None => st
       end) ∧
  (∀ returnUrl route,
     returnUrl_target returnUrl = Some route →
     (route ∈ ["/cart"; "/wishlist"; "/profile"; "/checkout"; "/admin"] ∧
      String.prefix route (strip_suffix returnUrl) = true) ∨
     (∃ first segment,
        strip_suffix returnUrl = String "/" (first +:+ String "/" segment) ∧
        String.prefix "admin" first = true ∧
        occurs "/" first = false ∧ occurs "/" segment = false ∧
        route = "/admin/" +:+ segment)) ∧
  (∀ st, run_callback (CbReturnUrl "/admin/users?x=1") st = prefetchRoute "/admin/users" st) ∧
  (∀ st, run_callback (CbReturnUrl "/admin") st = prefetchRoute "/admin" st) ∧
  (∀ st, run_callback (CbReturnUrl "/unknown/path") st = st) ∧
  (∀ returnUrl st,
     shouldPrefetch st = true → returnUrl ≠ EmptyString →
     let st' := usePrefetchFromReturnUrl (Some returnUrl) st in
     idle_queue st' =
       idle_queue st ++ idle_requests_of st (Some 500%N) [CbReturnUrl returnUrl] ∧
     timers st' = timers st ++ fallback_timers_of st [CbReturnUrl returnUrl] ∧
     loaderCalls st' = loaderCalls st) ∧
  (∀ returnUrl st,
     shouldPrefetch st = false ∨ returnUrl = None ∨ returnUrl = Some EmptyString →
     usePrefetchFromReturnUrl returnUrl st = st).
Proof.
  split; [apply run_return_url |]. split; [apply returnUrl_target_shape |].
  split; [| split; [| split; [| split]]].
  - intros st. rewrite run_return_url.
    assert (returnUrl_target "/admin/users?x=1" = Some "/admin/users") as ->
      by (vm_compute; reflexivity).
    reflexivity.
  - intros st. rewrite run_return_url.
    assert (returnUrl_target "/admin" = Some "/admin") as -> by (vm_compute; reflexivity).
    reflexivity.
  - intros st. rewrite run_return_url.
    assert (returnUrl_target "/unknown/path" = None) as -> by (vm_compute; reflexivity).
    reflexivity.
  - intros returnUrl st Hgate Hne.
    destruct (usePrefetchFromReturnUrl_open returnUrl st Hgate Hne) as (Hq & Ht & Hl & _).
    split; [exact Hq |]. split; [exact Ht | exact Hl].
  - intros returnUrl st. unfold usePrefetchFromReturnUrl.
    intros [-> | [-> | ->]]; [reflexivity | |].
    + by destruct (negb (shouldPrefetch st)).
    + by destruct (negb (shouldPrefetch st)).
Qed.

Lemma return_url_prefetcher_witness :
  (∃ first segment,
     strip_suffix "/admin/users?x=1" = String "/" (first +:+ String "/" segment) ∧
     "/admin/users" = "/admin/" +:+ segment) ∧
  idle_queue (usePrefetchFromReturnUrl (Some "/admin/users?x=1") fresh) =
    [{| idle_timeout := Some 500%N; idle_cb := CbReturnUrl "/admin/users?x=1" |}] ∧
  usePrefetchFromReturnUrl (Some "/cart") (init (Some data_saver_on) true)
    = init (Some data_saver_on) true.
Proof.
  destruct return_url_prefetcher as (_ & Hshape & _ & _ & _ & Hopen & Hclosed).
  split; [| split].
  - assert (returnUrl_target "/admin/users?x=1" = Some "/admin/users") as Htarget
      by (vm_compute; reflexivity).
    destruct (Hshape "/admin/users?x=1" "/admin/users" Htarget) as [[Hin _] | Hseg].
    + exfalso.
      repeat (apply elem_of_cons in Hin as [Hin | Hin]; [discriminate Hin |]).
      by apply elem_of_nil in Hin.
    + destruct Hseg as (first & segment & Hpath & _ & _ & _ & Hroute).
      exists first, segment. split; [exact Hpath | exact Hroute].
  - apply (Hopen "/admin/users?x=1" fresh).
    + reflexivity.
    + intros H. discriminate H.
  - apply (Hclosed (Some "/cart") (init (Some data_saver_on) true)).
    left. reflexivity.
Defined.

(** ** The Loaded Set over executions *)

Lemma loadable_has_loader loaded routes r :
  r ∈ loadable loaded routes → is_Some (routeComponentMap !! r).
Proof.
  unfold loadable. intros Hin. by apply list_elem_of_filter in Hin as [[_ Hsome] _].
Qed.

Lemma passive_accounted (c : cmd) st : passive c → accounted st → accounted (c st).
Proof.
  intros Hc (Hinfl & Hloaded & Hcalls).
  destruct (Hc st) as (Hs & rs & Hl & Hi).
  unfold accounted. rewrite Hs, Hl, Hi. repeat split.
  - intros r [Hin | Hin]%elem_of_app; apply elem_of_app; [left; by apply Hinfl | by right].
  - intros r Hin. apply elem_of_app. left. by apply Hloaded.
  - intros r [Hin | Hin]%elem_of_app; [by apply Hcalls | by eapply loadable_has_loader].
Qed.

Lemma list_elem_of_delete {A} (l : list A) i x : x ∈ delete i l → x ∈ l.
Proof.
  revert i. induction l as [| y l IH]; intros [| i]; simpl; try done.
  - intros Hin. by right.
  - intros [-> | Hin]%elem_of_cons; [by left | right; by eapply IH].
Qed.

Lemma step_accounted e st st' : step e st = Some st' → accounted st → accounted st'.
Proof.
  destruct e as [dt | i | i | i outcome | n | a location | returnUrl]; simpl;
    intros Hstep Hacc.
  - by simplify_eq.
  - destruct (timers st !! i) as [t |]; simpl in Hstep; [| done].
    destruct (due t <=? now st)%N; [| done]. simplify_eq.
    exact (passive_accounted _ (set_timers (delete i) st)
             (passive_run_callback (timer_cb t)) Hacc).
  - destruct (idle_queue st !! i) as [r |]; simpl in Hstep; [| done]. simplify_eq.
    exact (passive_accounted _ (set_idle_queue (delete i) st)
             (passive_run_callback (idle_cb r)) Hacc).
  - destruct (inflight st !! i) as [route |] eqn:Hi; simpl in Hstep; [| done].
    simplify_eq. destruct Hacc as (Hinfl & Hloaded & Hcalls).
    assert (route ∈ loaderCalls st) as Hroute.
    { apply Hinfl. by eapply list_elem_of_lookup_2. }
    destruct outcome as [| error]; unfold accounted; simpl; repeat split; try done.
    + intros r Hin. apply Hinfl. by eapply list_elem_of_delete.
    + intros r [->%elem_of_singleton | Hin]%elem_of_union; [done | by apply Hloaded].
    + intros r Hin. apply Hinfl. by eapply list_elem_of_delete.
  - by simplify_eq.
  - simplify_eq. by apply passive_accounted; [apply passive_usePrefetchRoutes |].
  - simplify_eq. by apply passive_accounted; [apply passive_usePrefetchFromReturnUrl |].
Qed.

Lemma exec_accounted es st st' : exec es st = Some st' → accounted st → accounted st'.
Proof.
  revert st. induction es as [| e es IH]; simpl; intros st Hexec Hacc.
  - by simplify_eq.
  - destruct (step e st) as [st1 |] eqn:Hstep; simpl in Hexec; [| done].
    eapply IH; [done |]. by eapply step_accounted.
Qed.

Lemma init_accounted n ric : accounted (init n ric).
Proof.
  unfold accounted, init. simpl. repeat split; intros r Hin.
  - by apply elem_of_nil in Hin.
  - by apply not_elem_of_empty in Hin.
  - by apply elem_of_nil in Hin.
Qed.

Lemma step_prefetchedRoutes_subseteq e st st' :
  step e st = Some st' → prefetchedRoutes st ⊆ prefetchedRoutes st'.
Proof.
  intros Hstep.
  destruct (step_prefetchedRoutes e st st' Hstep) as [-> | (i & route & _ & _ & ->)].
  - done.
  - apply union_subseteq_r.
Qed.

(** C8. The Loaded Set only grows: no turn of the event loop, and hence no
    run of it, removes a route.  A route enters the set only in the turn
    in which a pending promise of its loader resolves; in every state
    reached from the start of the session each route of the set is a route
    of the route table whose loader has been invoked.  A rejection changes
    neither the set nor anything else the next request looks at, so a
    request for a route that is still outside the set invokes its loader
    again. *)
Theorem loaded_set_insertion_only :
  (∀ e st st', step e st = Some st' → prefetchedRoutes st ⊆ prefetchedRoutes st') ∧
  (∀ es st st', exec es st = Some st' → prefetchedRoutes st ⊆ prefetchedRoutes st') ∧
  (∀ e st st' r,
     step e st = Some st' → r ∈ prefetchedRoutes st' → r ∉ prefetchedRoutes st →
     ∃ i, e = EvSettle i Resolved ∧ inflight st !! i = Some r) ∧
  (∀ es n ric st' r,
     exec es (init n ric) = Some st' → r ∈ prefetchedRoutes st' →
     r ∈ loaderCalls st' ∧ is_Some (routeComponentMap !! r)) ∧
  (∀ i error st st',
     step (EvSettle i (Rejected error)) st = Some st' →
     prefetchedRoutes st' = prefetchedRoutes st ∧
     loaderCalls st' = loaderCalls st ∧
     previousAuthState st' = previousAuthState st ∧
     timers st' = timers st ∧ idle_queue st' = idle_queue st ∧
     ∀ r, r ∉ prefetchedRoutes st' → is_Some (routeComponentMap !! r) →
          loaderCalls (prefetchRoute r st') = loaderCalls st' ++ [r]).
Proof.
  split; [apply step_prefetchedRoutes_subseteq |]. split; [| split; [| split]].
  - intros es. induction es as [| e es IH]; simpl; intros st st' Hexec.
    + by simplify_eq.
    + destruct (step e st) as [st1 |] eqn:Hstep; simpl in Hexec; [| done].
      etransitivity; [by eapply step_prefetchedRoutes_subseteq | by apply IH].
  - intros e st st' r Hstep Hin Hnin.
    destruct (step_prefetchedRoutes e st st' Hstep) as [Heq | (i & route & -> & Hi & Heq)].
    + by rewrite Heq in Hin.
    + exists i. split; [done |]. rewrite Heq in Hin.
      apply elem_of_union in Hin as [->%elem_of_singleton | Hin]; done.
  - intros es n ric st' r Hexec Hin.
    destruct (exec_accounted es _ st' Hexec (init_accounted n ric))
      as (_ & Hloaded & Hcalls).
    split; [by apply Hloaded | by apply Hcalls, Hloaded].
  - intros i error st st' Hstep. simpl in Hstep.
    destruct (inflight st !! i) as [route |]; simpl in Hstep; [| done].
    simplify_eq. simpl. repeat split.
    intros r Hnin Hsome. by rewrite prefetchRoute_known.
Qed.

Lemma loaded_set_insertion_only_witness :
  (∃ i, EvSettle 0 Resolved = EvSettle i Resolved ∧
        inflight (prefetchRoute "/login" fresh) !! i = Some "/login") ∧
  prefetchedRoutes (onRejected "/login" "offline" fresh) = prefetchedRoutes fresh ∧
  loaderCalls (prefetchRoute "/login"
                 (onRejected "/login" "offline"
                    (set_inflight (delete 0) (prefetchRoute "/login" fresh))))
    = ["/login"; "/login"].
Proof.
  destruct loaded_set_insertion_only as (_ & _ & Hinsert & _ & Hreject).
  assert (step (EvSettle 0 (Rejected "offline")) (prefetchRoute "/login" fresh) =
            Some (onRejected "/login" "offline"
                    (set_inflight (delete 0) (prefetchRoute "/login" fresh)))) as Hstep
    by (vm_compute; reflexivity).
  destruct (Hreject 0 "offline" _ _ Hstep) as (Hset & _ & _ & _ & _ & Hretry).
  split; [| split].
  - apply (Hinsert (EvSettle 0 Resolved) (prefetchRoute "/login" fresh)
             (onFulfilled "/login" (set_inflight (delete 0) (prefetchRoute "/login" fresh)))).
    + vm_compute. reflexivity.
    + vm_compute. reflexivity.
    + vm_compute. intros H. discriminate H.
  - vm_compute. reflexivity.
  - etransitivity.
    + apply Hretry.
      * vm_compute. intros H. discriminate H.
      * exists "@/pages/login-page". vm_compute. reflexivity.
    + vm_compute. reflexivity.
Defined.

(** ** Routes that reach the route table

    Every route the module ever passes to [prefetchRoute] begins with a
    slash, so the lookup in the route table only ever sees such keys. *)

Lemma run_callback_requests cb st :
  run_callback cb st = aftermath cb (forEach (requests_of cb) prefetchRoute st).
Proof.
  destruct cb as [routes | route | staff | | returnUrl].
  - reflexivity.
  - reflexivity.
  - apply run_login_burst_unfold.
  - apply run_admin_burst_unfold.
  - rewrite run_return_url. cbn [requests_of aftermath].
    by destruct (returnUrl_target returnUrl).
Qed.

Lemma requests_slashed cb : callback_slashed cb → Forall slashed (requests_of cb).
Proof.
  destruct cb as [routes | route | staff | | returnUrl]; cbn [requests_of callback_slashed].
  - by constructor.
  - intros Hr. by repeat constructor.
  - intros _. by repeat constructor.
  - intros _. by repeat constructor.
  - intros _. destruct (returnUrl_target returnUrl) as [route |] eqn:Htarget; [| constructor].
    repeat constructor.
    destruct (returnUrl_target_shape _ _ Htarget)
      as [[Hin _] | (first & segment & _ & _ & _ & _ & ->)]; [| done].
    repeat (apply elem_of_cons in Hin as [-> | Hin]; [done |]).
    by apply elem_of_nil in Hin.
Qed.

Lemma tidy_skip : tidy skip.
Proof. intros st Hst. exact Hst. Qed.

Lemma tidy_seq c1 c2 : tidy c1 → tidy c2 → tidy (c1 ;; c2).
Proof. intros H1 H2 st Hst. unfold seq. by apply H2, H1. Qed.

Lemma tidy_when b c : tidy c → tidy (when b c).
Proof. destruct b; [done | intros _; apply tidy_skip]. Qed.

Lemma tidy_forEach {A} (xs : list A) (f : A → cmd) :
  (∀ x, x ∈ xs → tidy (f x)) → tidy (forEach xs f).
Proof.
  induction xs as [| x xs IH]; intros Hf; simpl; [apply tidy_skip |].
  apply tidy_seq; [apply Hf; by left |]. apply IH. intros y Hy. apply Hf. by right.
Qed.

Lemma tidy_prefetchRoute route : tidy (prefetchRoute route).
Proof.
  intros st. unfold schedule_slashed.
  by destruct (prefetchRoute_frame route st) as (_ & _ & _ & _ & _ & -> & ->).
Qed.

Lemma tidy_console_log msg : tidy (console_log msg).
Proof. intros st [Ht Hq]. split; assumption. Qed.

Lemma tidy_set_previousAuthState v : tidy (set_previousAuthState v).
Proof. intros st [Ht Hq]. split; assumption. Qed.

Lemma tidy_setTimeout cb delay : callback_slashed cb → tidy (setTimeout cb delay).
Proof.
  intros Hcb st [Ht Hq]. split; [| assumption].
  cbn [timers setTimeout set_timers].
  apply Forall_app. split; [assumption |]. constructor; [exact Hcb | constructor].
Qed.

Lemma tidy_safeRequestIdleCallback cb timeout :
  callback_slashed cb → tidy (safeRequestIdleCallback cb timeout).
Proof.
  intros Hcb st Hst. unfold safeRequestIdleCallback.
  destruct (hasRequestIdleCallback st); [| by apply tidy_setTimeout].
  destruct Hst as [Ht Hq]. split; [assumption |].
  cbn [idle_queue requestIdleCallback set_idle_queue].
  apply Forall_app. split; [assumption |]. constructor; [exact Hcb | constructor].
Qed.

Lemma tidy_prefetchWithDelay routes delay :
  Forall slashed routes → tidy (prefetchWithDelay routes delay).
Proof. intros Hrs. by apply tidy_setTimeout. Qed.

Lemma adminRoutes_slashed : Forall slashed adminRoutes.
Proof. by repeat constructor. Qed.

Lemma tidy_run_callback cb : callback_slashed cb → tidy (run_callback cb).
Proof.
  intros Hcb st Hst. rewrite run_callback_requests.
  assert (schedule_slashed (forEach (requests_of cb) prefetchRoute st)) as Hmid.
  { apply tidy_forEach; [| done]. intros r _. apply tidy_prefetchRoute. }
  revert Hmid. generalize (forEach (requests_of cb) prefetchRoute st) as st1.
  intros st1 Hst1.
  destruct cb as [routes | route | staff | | returnUrl]; cbn [aftermath]; try done.
  - cbn [run_callback]. destruct (shouldPrefetch st1); [| done].
    apply tidy_forEach; [| done].
    intros r Hr. apply tidy_safeRequestIdleCallback.
    cbn [callback_slashed] in Hcb |- *. by eapply Forall_forall in Hcb.
  - apply tidy_when; [| done]. apply tidy_seq; [apply tidy_console_log |].
    apply tidy_prefetchWithDelay, adminRoutes_slashed.
Qed.

Lemma tidy_usePrefetchRoutes a location : tidy (usePrefetchRoutes a location).
Proof.
  intros st. unfold usePrefetchRoutes.
  destruct (negb (authInitialized a) || negb (shouldPrefetch st)); [done |].
  generalize (bool_decide (previousAuthState st = Some false)).
  generalize (bool_decide ("/admin" ∈ prefetchedRoutes st)).
  intros b1 b2.
  lazymatch goal with
  | |- _ → schedule_slashed (?c st) => enough (tidy c) as Hc by apply Hc
  end.
  destruct (isAuthenticated a); simpl negb; cbv iota;
    repeat lazymatch goal with
      | |- tidy (seq _ _) => apply tidy_seq
      | |- tidy (when _ _) => apply tidy_when
      | |- tidy (console_log _) => apply tidy_console_log
      | |- tidy (set_previousAuthState _) => apply tidy_set_previousAuthState
      | |- tidy (safeRequestIdleCallback _ _) =>
          apply tidy_safeRequestIdleCallback; exact I
      | |- tidy (prefetchWithDelay _ _) =>
          apply tidy_prefetchWithDelay; repeat constructor
      end.
Qed.

Lemma tidy_usePrefetchFromReturnUrl returnUrl : tidy (usePrefetchFromReturnUrl returnUrl).
Proof.
  intros st. unfold usePrefetchFromReturnUrl.
  destruct (negb (shouldPrefetch st)); [done |].
  destruct returnUrl as [r |]; [| done].
  destruct (negb (r =? "")%string); [| done].
  lazymatch goal with
  | |- _ → schedule_slashed (?c st) => enough (tidy c) as Hc by apply Hc
  end.
  apply tidy_seq; [apply tidy_console_log |].
  by apply tidy_safeRequestIdleCallback.
Qed.

Lemma Forall_delete {A} (P : A → Prop) (l : list A) i : Forall P l → Forall P (delete i l).
Proof.
  rewrite !Forall_forall. intros H x Hx. apply H. by eapply list_elem_of_delete.
Qed.

Lemma step_schedule_slashed e st st' :
  step e st = Some st' → schedule_slashed st → schedule_slashed st'.
Proof.
  destruct e as [dt | i | i | i outcome | n | a location | returnUrl]; simpl;
    intros Hstep [Ht Hq].
  - by simplify_eq.
  - destruct (timers st !! i) as [t |] eqn:Hi; simpl in Hstep; [| done].
    destruct (due t <=? now st)%N; [| done]. simplify_eq.
    apply tidy_run_callback.
    + apply (proj1 (Forall_forall _ _) Ht). by eapply list_elem_of_lookup_2.
    + split; [by apply Forall_delete | done].
  - destruct (idle_queue st !! i) as [r |] eqn:Hi; simpl in Hstep; [| done].
    simplify_eq. apply tidy_run_callback.
    + apply (proj1 (Forall_forall _ _) Hq). by eapply list_elem_of_lookup_2.
    + split; [done | by apply Forall_delete].
  - destruct (inflight st !! i) as [route |]; simpl in Hstep; [| done].
    simplify_eq. by destruct outcome.
  - by simplify_eq.
  - simplify_eq. by apply tidy_usePrefetchRoutes.
  - simplify_eq. by apply tidy_usePrefetchFromReturnUrl.
Qed.

(** In every state of a session, whatever is scheduled passes only
    slashed routes to [prefetchRoute] when it runs. *)
Lemma reachable_requests_slashed es n ric st :
  exec es (init n ric) = Some st →
  Forall (λ t, Forall slashed (requests_of (timer_cb t))) (timers st) ∧
  Forall (λ r, Forall slashed (requests_of (idle_cb r))) (idle_queue st).
Proof.
  assert (∀ st0, schedule_slashed st0 → exec es st0 = Some st → schedule_slashed st)
    as Hinv.
  { induction es as [| e es IH]; simpl; intros st0 Hst0 Hexec.
    - by simplify_eq.
    - destruct (step e st0) as [st1 |] eqn:Hstep; simpl in Hexec; [| done].
      eapply IH; [| done]. by eapply step_schedule_slashed. }
  intros Hexec.
  destruct (Hinv (init n ric)) as [Ht Hq]; [by split; constructor | done |].
  split; eapply Forall_impl; eauto using requests_slashed.
Qed.

(** ** Further properties of the scheduler *)

Lemma includes_elem_of xs x : JS.includes xs x = true ↔ x ∈ xs.
Proof.
  unfold JS.includes. rewrite existsb_exists. split.
  - intros (y & Hin & Heq). apply String.eqb_eq in Heq as ->.
    by apply list_elem_of_In.
  - intros Hin. exists x. split; [by apply list_elem_of_In | apply String.eqb_refl].
Qed.

(** X1. The role check.  A user counts as staff exactly when the auth store
    holds a user object with a roles array and one of its entries is,
    letter for letter, admin, marketer or consultant.  Without a user
    object, or without a roles array on it, the user is not staff. *)
Theorem staff_role_check (a : auth) :
  (is_staff a = true ↔
     ∃ u rs role,
       auth_user a = Some u ∧ roles u = Some rs ∧
       role ∈ rs ∧ role ∈ ["admin"; "marketer"; "consultant"]) ∧
  (auth_user a = None → is_staff a = false) ∧
  (∀ u, auth_user a = Some u → roles u = None → is_staff a = false) ∧
  (∀ u, auth_user a = Some u → roles u = Some [] → is_staff a = false).
Proof.
  unfold is_staff, hasStaffRole.
  destruct (auth_user a) as [[[rs |]] |];
    cbn [mbind option_bind roles JS.truthy default from_option id].
  - split; [| split; [| split]].
    + rewrite existsb_exists. split.
      * intros (role & Hin & Hinc). exists {| roles := Some rs |}, rs, role.
        repeat split; [by apply list_elem_of_In | by apply includes_elem_of].
      * intros (u & rs' & role & Hu & Hr & Hin & Hinc).
        injection Hu as <-. cbn [roles] in Hr. injection Hr as <-.
        exists role. split; [by apply list_elem_of_In | by apply includes_elem_of].
    + intros H. discriminate H.
    + intros u Hu Hr. injection Hu as <-. discriminate Hr.
    + intros u Hu Hr. injection Hu as <-. cbn [roles] in Hr. injection Hr as ->.
      reflexivity.
  - split; [| split; [| split]].
    + split; [intros H; discriminate H |].
      intros (u & rs' & role & Hu & Hr & _). injection Hu as <-. discriminate Hr.
    + intros H. discriminate H.
    + reflexivity.
    + reflexivity.
  - split; [| split; [| split]].
    + split; [intros H; discriminate H |].
      intros (u & rs' & role & Hu & _). discriminate Hu.
    + reflexivity.
    + intros u Hu. discriminate Hu.
    + intros u Hu. discriminate Hu.
Qed.

Lemma staff_role_check_witness :
  is_staff staff_member = true ∧
  is_staff visitor = false ∧
  is_staff {| isAuthenticated := true; authInitialized := true;
              auth_user := Some {| roles := None |} |} = false.
Proof.
  split; [| split].
  - apply (proj1 (staff_role_check staff_member)).
    exists {| roles := Some ["customer"; "marketer"] |}, ["customer"; "marketer"], "marketer".
    split; [reflexivity |]. split; [reflexivity |].
    split; [right; left | right; left].
  - apply (proj1 (proj2 (staff_role_check visitor))). reflexivity.
  - apply (proj1 (proj2 (proj2 (staff_role_check
             {| isAuthenticated := true; authInitialized := true;
                auth_user := Some {| roles := None |} |})))
             {| roles := None |}); reflexivity.
Defined.

Lemma count_pending_bursts f st login admin staff :
  length (List.filter f
            (map timer_cb (fallback_timers_of st (bursts login admin staff))
             ++ map idle_cb (idle_requests_of st None (bursts login admin staff))))
  = length (List.filter f (bursts login admin staff)).
Proof.
  unfold fallback_timers_of, idle_requests_of.
  destruct (hasRequestIdleCallback st); cbn [map app]; rewrite ?app_nil_r, map_map;
    cbn [timer_cb idle_cb]; by rewrite map_id.
Qed.

Lemma filter_waves_only f st waves :
  (∀ routes, f (CbWave routes) = false) →
  List.filter f (map timer_cb (wave_timers st waves)) = [].
Proof.
  intros Hf. unfold wave_timers.
  induction waves as [| w ws IH]; [done |].
  cbn [map List.filter timer_cb]. by rewrite Hf.
Qed.

(** How an evaluation changes the number of pending closures of one kind
    that is not a wave. *)
Lemma count_pending_usePrefetchRoutes f a location st :
  (∀ routes, f (CbWave routes) = false) →
  count_pending f (usePrefetchRoutes a location st) =
    count_pending f st +
    if authInitialized a && shouldPrefetch st
    then length (List.filter f
                   (bursts (login_transition a st) (admin_page_condition a location st)
                      (is_staff a)))
    else 0.
Proof.
  intros Hf.
  destruct (authInitialized a) eqn:Hinit, (shouldPrefetch st) eqn:Hgate; cbn [andb].
  2-4: rewrite usePrefetchRoutes_closed by (by (left + right)); lia.
  destruct (usePrefetchRoutes_open a location st Hinit Hgate) as (Ht & Hq & _).
  unfold count_pending, pending_callbacks. rewrite Ht, Hq.
  rewrite !map_app, !List.filter_app, !length_app.
  rewrite (filter_waves_only f st _ Hf). cbn [length].
  pose proof (count_pending_bursts f st (login_transition a st)
                (admin_page_condition a location st) (is_staff a)) as Hb.
  rewrite List.filter_app, length_app in Hb. lia.
Qed.



(** X3. When the admin-page burst is dispatched.  An evaluation adds one
    admin-page burst to what is pending exactly when it passes both gates,
    the location starts with the admin prefix, the user is staff and the
    admin dashboard is not in the Loaded Set; the authentication flag and
    the other six admin routes play no part.  Once the dashboard is in the
    Loaded Set no evaluation adds one. *)
Theorem admin_burst_dispatch (a : auth) (location : string) (st : state) :
  count_pending is_admin_burst (usePrefetchRoutes a location st) =
    count_pending is_admin_burst st +
    (if authInitialized a && shouldPrefetch st
        && JS.startsWith location "/admin" && is_staff a
        && negb (bool_decide ("/admin" ∈ prefetchedRoutes st))
     then 1 else 0) ∧
  ("/admin" ∈ prefetchedRoutes st →
     count_pending is_admin_burst (usePrefetchRoutes a location st) =
       count_pending is_admin_burst st).
Proof.
  assert (count_pending is_admin_burst (usePrefetchRoutes a location st) =
            count_pending is_admin_burst st +
            (if authInitialized a && shouldPrefetch st
                && JS.startsWith location "/admin" && is_staff a
                && negb (bool_decide ("/admin" ∈ prefetchedRoutes st))
             then 1 else 0)) as Hcount.
  { rewrite count_pending_usePrefetchRoutes by done.
    unfold admin_page_condition, bursts.
    destruct (authInitialized a && shouldPrefetch st); [| done].
    destruct (login_transition a st), (JS.startsWith location "/admin"), (is_staff a),
      (bool_decide ("/admin" ∈ prefetchedRoutes st)); reflexivity. }
  split; [exact Hcount |].
  intros Hloaded. rewrite Hcount, (bool_decide_eq_true_2 _ Hloaded).
  cbn [negb]. rewrite andb_false_r. lia.
Qed.

Lemma admin_burst_dispatch_witness :
  count_pending is_admin_burst
    (usePrefetchRoutes staff_member "/admin/users" (onFulfilled "/admin" fresh)) = 0.
Proof.
  apply (proj2 (admin_burst_dispatch staff_member "/admin/users" (onFulfilled "/admin" fresh))).
  vm_compute. reflexivity.
Defined.

(** X4. Neither hook loads anything itself.  Whatever the auth state, the
    location, the return URL and the state of the session, running the
    effect body of either hook, or the timer body of a wave, invokes no
    loader, leaves the pending promises as they are and does not touch
    the Loaded Set: every load is deferred to an idle callback. *)
Theorem hooks_only_schedule (a : auth) (location : string) (returnUrl : option string)
    (routes : list string) (st : state) :
  (prefetchedRoutes (usePrefetchRoutes a location st) = prefetchedRoutes st ∧
   loaderCalls (usePrefetchRoutes a location st) = loaderCalls st ∧
   inflight (usePrefetchRoutes a location st) = inflight st) ∧
  (prefetchedRoutes (usePrefetchFromReturnUrl returnUrl st) = prefetchedRoutes st ∧
   loaderCalls (usePrefetchFromReturnUrl returnUrl st) = loaderCalls st ∧
   inflight (usePrefetchFromReturnUrl returnUrl st) = inflight st) ∧
  (prefetchedRoutes (run_callback (CbWave routes) st) = prefetchedRoutes st ∧
   loaderCalls (run_callback (CbWave routes) st) = loaderCalls st ∧
   inflight (run_callback (CbWave routes) st) = inflight st).
Proof.
  split; [| split].
  - destruct (authInitialized a) eqn:Hinit, (shouldPrefetch st) eqn:Hgate.
    2-4: by rewrite usePrefetchRoutes_closed by (by (left + right)).
    destruct (usePrefetchRoutes_open a location st Hinit Hgate)
      as (_ & _ & _ & Hs & Hl & Hi & _).
    split; [exact Hs |]. split; [exact Hl | exact Hi].
  - destruct (shouldPrefetch st) eqn:Hgate.
    + destruct returnUrl as [r |].
      * destruct (String.eqb_spec r EmptyString) as [-> | Hne].
        -- unfold usePrefetchFromReturnUrl. rewrite Hgate. repeat split.
        -- destruct (usePrefetchFromReturnUrl_open r st Hgate Hne)
             as (_ & _ & Hl & Hi & Hs).
           split; [exact Hs |]. split; [exact Hl | exact Hi].
      * unfold usePrefetchFromReturnUrl. rewrite Hgate. repeat split.
    + unfold usePrefetchFromReturnUrl. rewrite Hgate. repeat split.
  - destruct (shouldPrefetch st) eqn:Hgate.
    + destruct (run_wave_open routes st Hgate) as (_ & _ & Hs & Hl & Hi & _).
      split; [exact Hs |]. split; [exact Hl | exact Hi].
    + rewrite run_wave_closed by exact Hgate. repeat split.
Qed.

(** ** What the module does to the schedule *)

Lemma scheduling_untouched (c : cmd) :
  (∀ st, timers (c st) = timers st) →
  (∀ st, idle_queue (c st) = idle_queue st) →
  (∀ st, hasRequestIdleCallback (c st) = hasRequestIdleCallback st) →
  scheduling c.
Proof.
  intros Ht Hq Hr st. exists [], [].
  rewrite Ht, Hq, Hr, !app_nil_r. repeat split; constructor.
Qed.

Lemma scheduling_skip : scheduling skip.
Proof. apply scheduling_untouched; reflexivity. Qed.

Lemma scheduling_seq c1 c2 : scheduling c1 → scheduling c2 → scheduling (c1 ;; c2).
Proof.
  intros H1 H2 st. unfold seq.
  destruct (H1 st) as (ts1 & qs1 & Ht1 & Hq1 & Hr1 & Hf1 & Hw1).
  destruct (H2 (c1 st)) as (ts2 & qs2 & Ht2 & Hq2 & Hr2 & Hf2 & Hw2).
  exists (ts1 ++ ts2), (qs1 ++ qs2).
  rewrite Ht2, Hq2, Hr2, Ht1, Hq1, Hr1, <- !app_assoc. rewrite Hr1 in Hf2, Hw2.
  repeat split.
  - intros Hric. by rewrite Hf1, Hf2.
  - intros Hric. apply Forall_app. split; [by apply Hw1 | by apply Hw2].
Qed.

Lemma scheduling_when b c : scheduling c → scheduling (when b c).
Proof. destruct b; [done | intros _; apply scheduling_skip]. Qed.

Lemma scheduling_forEach {A} (xs : list A) (f : A → cmd) :
  (∀ x, scheduling (f x)) → scheduling (forEach xs f).
Proof.
  intros Hf. induction xs as [| x xs IH]; cbn [forEach].
  - apply scheduling_skip.
  - by apply scheduling_seq.
Qed.

Lemma scheduling_prefetchRoute route : scheduling (prefetchRoute route).
Proof.
  apply scheduling_untouched; intros st;
    by destruct (prefetchRoute_frame route st) as (_ & _ & _ & ? & _ & ? & ?).
Qed.

Lemma scheduling_console_log msg : scheduling (console_log msg).
Proof. apply scheduling_untouched; reflexivity. Qed.

Lemma scheduling_set_previousAuthState v : scheduling (set_previousAuthState v).
Proof. apply scheduling_untouched; reflexivity. Qed.

Lemma scheduling_prefetchWithDelay routes delay : scheduling (prefetchWithDelay routes delay).
Proof.
  intros st. exists [{| due := (now st + delay)%N; timer_cb := CbWave routes |}], [].
  rewrite app_nil_r. repeat split. intros _. by repeat constructor.
Qed.

Lemma scheduling_safeRequestIdleCallback cb timeout :
  scheduling (safeRequestIdleCallback cb timeout).
Proof.
  intros st. unfold safeRequestIdleCallback.
  destruct (hasRequestIdleCallback st) eqn:Hric.
  - exists [], [{| idle_timeout := timeout; idle_cb := cb |}].
    cbn [timers idle_queue hasRequestIdleCallback requestIdleCallback set_idle_queue].
    rewrite app_nil_r. repeat split; [exact Hric | intros H; discriminate H | constructor].
  - exists [{| due := (now st + 1)%N; timer_cb := cb |}], [].
    cbn [timers idle_queue hasRequestIdleCallback setTimeout set_timers].
    rewrite app_nil_r. repeat split; [exact Hric | intros H; discriminate H].
Qed.

Lemma scheduling_gated (g : state → bool) (c : cmd) :
  scheduling c → scheduling (λ st, if g st then c st else st).
Proof. intros Hc st. destruct (g st); [apply Hc | apply scheduling_skip]. Qed.

Ltac scheduling_steps :=
  repeat lazymatch goal with
    | |- scheduling (seq _ _) => apply scheduling_seq
    | |- scheduling (when _ _) => apply scheduling_when
    | |- scheduling skip => apply scheduling_skip
    | |- scheduling (forEach _ _) => apply scheduling_forEach; intros ?
    | |- scheduling (prefetchRoute _) => apply scheduling_prefetchRoute
    | |- scheduling (console_log _) => apply scheduling_console_log
    | |- scheduling (set_previousAuthState _) => apply scheduling_set_previousAuthState
    | |- scheduling (prefetchWithDelay _ _) => apply scheduling_prefetchWithDelay
    | |- scheduling (safeRequestIdleCallback _ _) =>
        apply scheduling_safeRequestIdleCallback
    | |- scheduling (if ?b then _ else _) => destruct b
    end.

Lemma scheduling_run_callback cb : scheduling (run_callback cb).
Proof.
  destruct cb as [routes | route | staff | | returnUrl]; cbn [run_callback].
  - apply (scheduling_gated shouldPrefetch
             (forEach routes (λ route, safeRequestIdleCallback (CbPrefetch route) (Some 2000%N)))).
    scheduling_steps.
  - scheduling_steps.
  - scheduling_steps.
  - scheduling_steps.
  - cbv zeta. scheduling_steps.
Qed.

Lemma scheduling_usePrefetchRoutes a location : scheduling (usePrefetchRoutes a location).
Proof.
  intros st. unfold usePrefetchRoutes.
  destruct (negb (authInitialized a) || negb (shouldPrefetch st));
    [apply scheduling_skip |].
  generalize (bool_decide (previousAuthState st = Some false)).
  generalize (bool_decide ("/admin" ∈ prefetchedRoutes st)).
  intros b1 b2. cbv zeta.
  lazymatch goal with
  | |- ∃ ts qs, timers (?c st) = _ ∧ _ => enough (scheduling c) as Hc by apply Hc
  end.
  scheduling_steps.
Qed.

Lemma scheduling_usePrefetchFromReturnUrl returnUrl :
  scheduling (usePrefetchFromReturnUrl returnUrl).
Proof.
  intros st. unfold usePrefetchFromReturnUrl.
  destruct (negb (shouldPrefetch st)); [apply scheduling_skip |].
  destruct returnUrl as [r |]; [| apply scheduling_skip].
  destruct (negb (r =? "")%string); [| apply scheduling_skip].
  lazymatch goal with
  | |- ∃ ts qs, timers (?c st) = _ ∧ _ => enough (scheduling c) as Hc by apply Hc
  end.
  scheduling_steps.
Qed.

(** One turn of the event loop removes from the schedule only what it
    runs, and appends. *)
Lemma step_appends (e : event) (st st' : state) :
  step e st = Some st' →
  ∃ ts qs,
    timers st' =
      (match e with EvTimer i => delete i (timers st) | _ => timers st end) ++ ts ∧
    idle_queue st' =
      (match e with EvIdle i => delete i (idle_queue st) | _ => idle_queue st end) ++ qs ∧
    hasRequestIdleCallback st' = hasRequestIdleCallback st ∧
    (hasRequestIdleCallback st = false → qs = []) ∧
    (hasRequestIdleCallback st = true → Forall (λ t, is_wave (timer_cb t) = true) ts).
Proof.
  destruct e as [dt | i | i | i outcome | n | a location | returnUrl]; cbn [step];
    intros Hstep.
  - injection Hstep as <-. apply (scheduling_skip st).
  - destruct (timers st !! i) as [t |]; cbn [mbind option_bind] in Hstep; [| discriminate Hstep].
    destruct (due t <=? now st)%N; [| discriminate Hstep]. injection Hstep as <-.
    apply (scheduling_run_callback (timer_cb t) (set_timers (delete i) st)).
  - destruct (idle_queue st !! i) as [r |]; cbn [mbind option_bind] in Hstep;
      [| discriminate Hstep].
    injection Hstep as <-.
    apply (scheduling_run_callback (idle_cb r) (set_idle_queue (delete i) st)).
  - destruct (inflight st !! i) as [route |]; cbn [mbind option_bind] in Hstep;
      [| discriminate Hstep].
    injection Hstep as <-. destruct outcome; apply (scheduling_skip st).
  - injection Hstep as <-. apply (scheduling_skip st).
  - injection Hstep as <-. apply scheduling_usePrefetchRoutes.
  - injection Hstep as <-. apply scheduling_usePrefetchFromReturnUrl.
Qed.

Lemma exec_invariant (I : state → Prop) :
  (∀ e st st', step e st = Some st' → I st → I st') →
  ∀ es st st', exec es st = Some st' → I st → I st'.
Proof.
  intros Hstep es. induction es as [| e es IH]; cbn [exec]; intros st st' Hexec Hst.
  - injection Hexec as <-. exact Hst.
  - destruct (step e st) as [st1 |] eqn:He; cbn [mbind option_bind] in Hexec;
      [| discriminate Hexec].
    eapply IH; [exact Hexec |]. by eapply Hstep.
Qed.

(** X5. A host without idle scheduling.  Where [requestIdleCallback] is
    missing nothing is ever queued as an idle request, in any run of the
    session: every deferred callback becomes a timer, and the timeout the
    caller asked for makes no difference to what is scheduled. *)
Theorem fallback_host_never_idles :
  (∀ es n st, exec es (init n false) = Some st →
     hasRequestIdleCallback st = false ∧ idle_queue st = []) ∧
  (∀ cb timeout timeout' st,
     hasRequestIdleCallback st = false →
     safeRequestIdleCallback cb timeout st = safeRequestIdleCallback cb timeout' st ∧
     timers (safeRequestIdleCallback cb timeout st) =
       timers st ++ [{| due := (now st + 1)%N; timer_cb := cb |}]).
Proof.
  split.
  - intros es n st Hexec.
    apply (exec_invariant
             (λ st, hasRequestIdleCallback st = false ∧ idle_queue st = [])
             ) with (es := es) (st := init n false); [| exact Hexec | by split].
    intros e st0 st1 Hstep [Hric Hq].
    destruct (step_appends e st0 st1 Hstep) as (ts & qs & _ & Hq' & Hr & Hf & _).
    split; [by rewrite Hr |].
    rewrite Hq', (Hf Hric), app_nil_r. destruct e; rewrite ?Hq; reflexivity.
  - intros cb timeout timeout' st Hric. unfold safeRequestIdleCallback.
    rewrite Hric. split; reflexivity.
Qed.

Lemma fallback_host_never_idles_witness :
  match exec [EvRender visitor "/"; EvRender staff_member "/admin"; EvTick 5%N; EvTimer 0]
             (init (Some no_connection_info) false) with
  | Some st => hasRequestIdleCallback st = false ∧ idle_queue st = []
  | None => False
  end.
Proof.
  destruct (exec [EvRender visitor "/"; EvRender staff_member "/admin"; EvTick 5%N; EvTimer 0]
              (init (Some no_connection_info) false)) as [st |] eqn:Hexec.
  - exact (proj1 fallback_host_never_idles _ _ _ Hexec).
  - vm_compute in Hexec. discriminate Hexec.
Defined.

(** X6. A host with idle scheduling.  Where [requestIdleCallback] exists
    the only timers the module ever has pending are those of waves: the
    bursts and the per-route requests wait for an idle period, never for a
    timer. *)
Theorem idle_host_timers_are_waves (es : list event) (n : option navigator) (st : state) :
  exec es (init n true) = Some st →
  hasRequestIdleCallback st = true ∧
  Forall (λ t, is_wave (timer_cb t) = true) (timers st).
Proof.
  intros Hexec.
  apply (exec_invariant
           (λ st, hasRequestIdleCallback st = true ∧
                  Forall (λ t, is_wave (timer_cb t) = true) (timers st))
           ) with (es := es) (st := init n true); [| exact Hexec | by split; constructor].
  intros e st0 st1 Hstep [Hric Hw].
  destruct (step_appends e st0 st1 Hstep) as (ts & qs & Ht' & _ & Hr & _ & Hnew).
  split; [by rewrite Hr |].
  rewrite Ht'. apply Forall_app. split; [| by apply Hnew].
  destruct e; try exact Hw. by apply Forall_delete.
Qed.

Lemma idle_host_timers_are_waves_witness :
  match exec [EvRender visitor "/"; EvRender staff_member "/admin"; EvIdle 0] fresh with
  | Some st => Forall (λ t, is_wave (timer_cb t) = true) (timers st)
  | None => False
  end.
Proof.
  destruct (exec [EvRender visitor "/"; EvRender staff_member "/admin"; EvIdle 0] fresh)
    as [st |] eqn:Hexec.
  - exact (proj2 (idle_host_timers_are_waves _ _ _ Hexec)).
  - vm_compute in Hexec. discriminate Hexec.
Defined.

(** X7. Nothing is ever cancelled.  Over any run of the event loop in
    which no timer fires, every timer that was pending is still pending at
    the end, in the same order, whatever happened in between (logout,
    navigation, a change of network conditions); and likewise for idle
    requests over a run in which no idle callback runs. *)
Theorem nothing_is_cancelled (es : list event) (st st' : state) :
  exec es st = Some st' →
  (Forall (λ e, ∀ i, e ≠ EvTimer i) es → timers st `prefix_of` timers st') ∧
  (Forall (λ e, ∀ i, e ≠ EvIdle i) es → idle_queue st `prefix_of` idle_queue st').
Proof.
  revert st. induction es as [| e es IH]; cbn [exec]; intros st Hexec.
  - injection Hexec as <-. split; intros _; reflexivity.
  - destruct (step e st) as [st1 |] eqn:Hstep; cbn [mbind option_bind] in Hexec;
      [| discriminate Hexec].
    destruct (IH st1 Hexec) as [IHt IHq].
    destruct (step_appends e st st1 Hstep) as (ts & qs & Ht & Hq & _).
    split; intros Hes; apply Forall_cons_1 in Hes as [He Hes].
    + etransitivity; [| by apply IHt]. exists ts. rewrite Ht.
      destruct e; try reflexivity. by destruct (He i).
    + etransitivity; [| by apply IHq]. exists qs. rewrite Hq.
      destruct e; try reflexivity. by destruct (He i).
Qed.

Lemma nothing_is_cancelled_witness :
  match exec [EvRender booting "/"; EvNavigator (Some data_saver_on); EvRender customer "/cart"]
             (usePrefetchRoutes visitor "/" fresh) with
  | Some st' => timers (usePrefetchRoutes visitor "/" fresh) `prefix_of` timers st'
  | None => False
  end.
Proof.
  destruct (exec [EvRender booting "/"; EvNavigator (Some data_saver_on);
                  EvRender customer "/cart"]
              (usePrefetchRoutes visitor "/" fresh)) as [st' |] eqn:Hexec.
  - apply (proj1 (nothing_is_cancelled _ _ _ Hexec)).
    repeat constructor; intros i H; discriminate H.
  - vm_compute in Hexec. discriminate Hexec.
Defined.

(** ** Confinement of what a session loads *)

Section Confinement.

Variable P : string → Prop.

Lemma keeps_untouched (c : cmd) :
  (∀ st, timers (c st) = timers st) →
  (∀ st, idle_queue (c st) = idle_queue st) →
  (∀ st, inflight (c st) = inflight st) →
  (∀ st, loaderCalls (c st) = loaderCalls st) →
  (∀ st, prefetchedRoutes (c st) = prefetchedRoutes st) →
  keeps P c.
Proof.
  intros Ht Hq Hi Hl Hs st. unfold within. by rewrite Ht, Hq, Hi, Hl, Hs.
Qed.

Lemma keeps_skip : keeps P skip.
Proof. intros st Hst. exact Hst. Qed.

Lemma keeps_seq c1 c2 : keeps P c1 → keeps P c2 → keeps P (c1 ;; c2).
Proof. intros H1 H2 st Hst. unfold seq. by apply H2, H1. Qed.

Lemma keeps_when b c : (b = true → keeps P c) → keeps P (when b c).
Proof. destruct b; [intros H; by apply H | intros _; apply keeps_skip]. Qed.

Lemma keeps_forEach {A} (xs : list A) (f : A → cmd) :
  (∀ x, x ∈ xs → keeps P (f x)) → keeps P (forEach xs f).
Proof.
  induction xs as [| x xs IH]; intros Hf; cbn [forEach]; [apply keeps_skip |].
  apply keeps_seq; [apply Hf; by left |]. apply IH. intros y Hy. apply Hf. by right.
Qed.

Lemma loadable_Forall loaded routes : Forall P routes → Forall P (loadable loaded routes).
Proof.
  rewrite !Forall_forall. intros H r Hr. apply H.
  unfold loadable in Hr. by apply list_elem_of_filter in Hr as [_ Hr].
Qed.

Lemma keeps_prefetchRoute route : P route → keeps P (prefetchRoute route).
Proof.
  intros Hr st (Ht & Hq & Hi & Hl & Hs).
  destruct (prefetchRoute_frame route st) as (Hs' & _ & _ & _ & _ & Ht' & Hq').
  unfold within.
  rewrite Ht', Hq', Hs', prefetchRoute_loaderCalls, prefetchRoute_inflight.
  repeat split; try assumption.
  - apply Forall_app. split; [assumption |].
    apply loadable_Forall. by repeat constructor.
  - apply Forall_app. split; [assumption |].
    apply loadable_Forall. by repeat constructor.
Qed.

Lemma keeps_console_log msg : keeps P (console_log msg).
Proof. apply keeps_untouched; reflexivity. Qed.

Lemma keeps_set_previousAuthState v : keeps P (set_previousAuthState v).
Proof. apply keeps_untouched; reflexivity. Qed.

Lemma keeps_setTimeout cb delay : Forall P (reach_of cb) → keeps P (setTimeout cb delay).
Proof.
  intros Hcb st (Ht & Hq & Hi & Hl & Hs). unfold within.
  cbn [timers idle_queue inflight loaderCalls prefetchedRoutes setTimeout set_timers].
  repeat split; try assumption.
  apply Forall_app. split; [assumption |]. constructor; [exact Hcb | constructor].
Qed.

Lemma keeps_safeRequestIdleCallback cb timeout :
  Forall P (reach_of cb) → keeps P (safeRequestIdleCallback cb timeout).
Proof.
  intros Hcb st Hst. unfold safeRequestIdleCallback.
  destruct (hasRequestIdleCallback st); [| by apply keeps_setTimeout].
  destruct Hst as (Ht & Hq & Hi & Hl & Hs). unfold within.
  cbn [timers idle_queue inflight loaderCalls prefetchedRoutes requestIdleCallback
         set_idle_queue].
  repeat split; try assumption.
  apply Forall_app. split; [assumption |]. constructor; [exact Hcb | constructor].
Qed.

Lemma keeps_prefetchWithDelay routes delay :
  Forall P routes → keeps P (prefetchWithDelay routes delay).
Proof. intros Hrs. by apply keeps_setTimeout. Qed.

Ltac split_Forall H :=
  repeat (apply Forall_cons_1 in H as [? H]).

Ltac keeps_steps :=
  repeat lazymatch goal with
    | |- keeps P (seq _ _) => apply keeps_seq
    | |- keeps P (when _ _) => apply keeps_when; intros ?
    | |- keeps P skip => apply keeps_skip
    | |- keeps P (prefetchRoute _) => apply keeps_prefetchRoute; assumption
    | |- keeps P (console_log _) => apply keeps_console_log
    | |- keeps P (set_previousAuthState _) => apply keeps_set_previousAuthState
    | |- keeps P (prefetchWithDelay _ _) =>
        apply keeps_prefetchWithDelay; repeat (constructor; [assumption |]); constructor
    end.

Lemma keeps_run_callback cb : Forall P (reach_of cb) → keeps P (run_callback cb).
Proof.
  destruct cb as [routes | route | staff | | returnUrl]; cbn [reach_of]; intros Hcb.
  - intros st Hst. cbn [run_callback]. destruct (shouldPrefetch st); [| exact Hst].
    revert st Hst. apply keeps_forEach. intros r Hr.
    apply keeps_safeRequestIdleCallback. cbn [reach_of].
    constructor; [| constructor]. by eapply Forall_forall in Hcb.
  - apply Forall_cons_1 in Hcb as [Hr _]. by apply keeps_prefetchRoute.
  - intros st. rewrite run_login_burst_unfold. revert st.
    change (keeps P (forEach ["/cart"; "/wishlist"; "/profile"] prefetchRoute ;;
                     when staff
                       (console_log "👤 Staff user detected, preloading admin routes..." ;;
                        prefetchWithDelay adminRoutes 1000%N))).
    apply Forall_app in Hcb as [Hshop Hadmin].
    apply keeps_seq.
    + apply keeps_forEach. intros r Hr. apply keeps_prefetchRoute.
      by eapply Forall_forall in Hshop.
    + apply keeps_when. intros ->. apply keeps_seq; [apply keeps_console_log |].
      by apply keeps_prefetchWithDelay.
  - intros st. rewrite run_admin_burst_unfold. revert st.
    apply keeps_forEach. intros r Hr. apply keeps_prefetchRoute.
    by eapply Forall_forall in Hcb.
  - intros st. rewrite run_return_url.
    destruct (returnUrl_target returnUrl) as [route |]; [| by intros ?].
    apply Forall_cons_1 in Hcb as [Hr _]. by apply keeps_prefetchRoute.
Qed.

Lemma keeps_usePrefetchRoutes a location :
  Forall P (render_reach a location) → keeps P (usePrefetchRoutes a location).
Proof.
  intros Hreach st. unfold usePrefetchRoutes.
  destruct (negb (authInitialized a) || negb (shouldPrefetch st)); [by intros ? |].
  generalize (bool_decide (previousAuthState st = Some false)).
  generalize (bool_decide ("/admin" ∈ prefetchedRoutes st)).
  intros b1 b2. cbv zeta.
  lazymatch goal with
  | |- _ → within P (?c st) => enough (keeps P c) as Hc by apply Hc
  end.
  revert Hreach. unfold render_reach, is_staff, specified_waves.
  generalize (JS.truthy (hasStaffRole (auth_user a))) as staff.
  generalize (JS.startsWith location "/admin") as onAdmin.
  intros onAdmin staff.
  destruct (isAuthenticated a), staff, onAdmin, b1, b2;
    cbn [negb andb map snd concat app reach_of adminRoutes]; unfold adminRoutes;
    cbn [app]; intros Hreach; split_Forall Hreach;
    repeat lazymatch goal with
      | |- keeps P (seq _ _) => apply keeps_seq
      | |- keeps P (when false _) => apply keeps_skip
      | |- keeps P (when true _) => apply keeps_when; intros _
      | |- keeps P (console_log _) => apply keeps_console_log
      | |- keeps P (set_previousAuthState _) => apply keeps_set_previousAuthState
      | |- keeps P (prefetchWithDelay _ _) =>
          apply keeps_prefetchWithDelay; repeat (constructor; [assumption |]); constructor
      | |- keeps P (safeRequestIdleCallback _ _) =>
          apply keeps_safeRequestIdleCallback; cbn [reach_of app]; unfold adminRoutes;
          repeat (constructor; [assumption |]); constructor
      end.
Qed.

Lemma keeps_usePrefetchFromReturnUrl returnUrl :
  event_within P (EvMount returnUrl) → keeps P (usePrefetchFromReturnUrl returnUrl).
Proof.
  intros Hreach st. unfold usePrefetchFromReturnUrl.
  destruct (negb (shouldPrefetch st)); [by intros ? |].
  destruct returnUrl as [r |]; [| by intros ?].
  destruct (negb (r =? "")%string); [| by intros ?].
  lazymatch goal with
  | |- _ → within P (?c st) => enough (keeps P c) as Hc by apply Hc
  end.
  apply keeps_seq; [apply keeps_console_log |].
  by apply keeps_safeRequestIdleCallback.
Qed.

Lemma step_within e st st' :
  step e st = Some st' → event_within P e → within P st → within P st'.
Proof.
  destruct e as [dt | i | i | i outcome | n | a location | returnUrl]; cbn [step];
    intros Hstep He Hst.
  - injection Hstep as <-. exact Hst.
  - destruct (timers st !! i) as [t |] eqn:Hi; cbn [mbind option_bind] in Hstep;
      [| discriminate Hstep].
    destruct (due t <=? now st)%N; [| discriminate Hstep]. injection Hstep as <-.
    destruct Hst as (Ht & Hq & Hinfl & Hl & Hs).
    apply keeps_run_callback.
    + apply (proj1 (Forall_forall _ _) Ht). by eapply list_elem_of_lookup_2.
    + unfold within. cbn [timers idle_queue inflight loaderCalls prefetchedRoutes set_timers].
      repeat split; try assumption. by apply Forall_delete.
  - destruct (idle_queue st !! i) as [r |] eqn:Hi; cbn [mbind option_bind] in Hstep;
      [| discriminate Hstep].
    injection Hstep as <-. destruct Hst as (Ht & Hq & Hinfl & Hl & Hs).
    apply keeps_run_callback.
    + apply (proj1 (Forall_forall _ _) Hq). by eapply list_elem_of_lookup_2.
    + unfold within.
      cbn [timers idle_queue inflight loaderCalls prefetchedRoutes set_idle_queue].
      repeat split; try assumption. by apply Forall_delete.
  - destruct (inflight st !! i) as [route |] eqn:Hi; cbn [mbind option_bind] in Hstep;
      [| discriminate Hstep].
    injection Hstep as <-. destruct Hst as (Ht & Hq & Hinfl & Hl & Hs).
    assert (P route) as Hroute.
    { apply (proj1 (Forall_forall _ _) Hinfl). by eapply list_elem_of_lookup_2. }
    destruct outcome as [| error]; unfold within;
      cbn [timers idle_queue inflight loaderCalls prefetchedRoutes onFulfilled onRejected
             set_console set_prefetchedRoutes set_inflight];
      repeat split; try assumption; try (by apply Forall_delete).
    intros r [->%elem_of_singleton | Hr]%elem_of_union; [exact Hroute | by apply Hs].
  - injection Hstep as <-. exact Hst.
  - injection Hstep as <-. by apply keeps_usePrefetchRoutes.
  - injection Hstep as <-. by apply keeps_usePrefetchFromReturnUrl.
Qed.

Lemma exec_within es st st' :
  exec es st = Some st' → Forall (event_within P) es → within P st → within P st'.
Proof.
  revert st. induction es as [| e es IH]; cbn [exec]; intros st Hexec Hes Hst.
  - injection Hexec as <-. exact Hst.
  - destruct (step e st) as [st1 |] eqn:Hstep; cbn [mbind option_bind] in Hexec;
      [| discriminate Hexec].
    apply Forall_cons_1 in Hes as [He Hes].
    eapply IH; [exact Hexec | exact Hes |]. by eapply step_within.
Qed.

Lemma init_within n ric : within P (init n ric).
Proof.
  unfold within, init. cbn. repeat split; try constructor.
  intros r Hr. by apply not_elem_of_empty in Hr.
Qed.

End Confinement.

Lemma non_staff_event_within e :
  non_staff_event e → event_within (λ r, JS.startsWith r "/admin" = false) e.
Proof.
  destruct e as [dt | i | i | i outcome | n | a location | returnUrl];
    cbn [non_staff_event event_within]; try done.
  - intros Hstaff. unfold render_reach, specified_waves. rewrite Hstaff.
    rewrite andb_false_r.
    destruct (isAuthenticated a); cbn [map snd concat app reach_of];
      repeat (constructor; [reflexivity |]); constructor.
  - by intros ->.
Qed.

Lemma visitor_event_within e :
  visitor_event e → event_within (λ r, r ∈ visitor_routes) e.
Proof.
  destruct e as [dt | i | i | i outcome | n | a location | returnUrl];
    cbn [visitor_event event_within]; try done.
  - intros [Hauth Hstaff]. unfold render_reach, specified_waves.
    rewrite Hauth, Hstaff, andb_false_r. cbn [map snd concat app].
    repeat (constructor;
            [apply list_elem_of_In; cbn [In visitor_routes];
             repeat first [left; reflexivity | right] |]).
    constructor.
  - by intros ->.
Qed.

(** X8. A session without staff loads no admin bundle.  In any run from
    the start of a session in which every evaluation sees a user without a
    staff role and no return URL is given, no loader of a route under the
    admin prefix is ever invoked and no such route enters the Loaded Set,
    whatever the authentication flag, the location and the network do. *)
Theorem non_staff_session_loads_no_admin_route
    (es : list event) (n : option navigator) (ric : bool) (st : state) :
  exec es (init n ric) = Some st →
  Forall non_staff_event es →
  Forall (λ r, JS.startsWith r "/admin" = false) (loaderCalls st) ∧
  (∀ r, r ∈ prefetchedRoutes st → JS.startsWith r "/admin" = false) ∧
  count_pending is_admin_burst st = 0.
Proof.
  intros Hexec Hes.
  assert (within (λ r, JS.startsWith r "/admin" = false) st) as (Ht & Hq & _ & Hl & Hs).
  { eapply exec_within; [exact Hexec | | apply init_within].
    eapply Forall_impl; [exact Hes | apply non_staff_event_within]. }
  split; [exact Hl |]. split; [exact Hs |].
  unfold count_pending, pending_callbacks. rewrite List.filter_app, length_app.
  assert (∀ cb, Forall (λ r, JS.startsWith r "/admin" = false) (reach_of cb) →
                is_admin_burst cb = false) as Hno.
  { intros [| | | |] Hcb; try reflexivity.
    cbn [reach_of] in Hcb. unfold adminRoutes in Hcb.
    apply Forall_cons_1 in Hcb as [Hcb _]. discriminate Hcb. }
  assert (List.filter is_admin_burst (map timer_cb (timers st)) = []) as ->.
  { induction Ht as [| t ts Hcb _ IH]; [reflexivity |].
    cbn [map List.filter]. by rewrite (Hno _ Hcb). }
  assert (List.filter is_admin_burst (map idle_cb (idle_queue st)) = []) as ->.
  { induction Hq as [| r rs Hcb _ IH]; [reflexivity |].
    cbn [map List.filter]. by rewrite (Hno _ Hcb). }
  reflexivity.
Qed.

Lemma non_staff_session_loads_no_admin_route_witness :
  match exec [EvRender visitor "/admin"; EvRender customer "/admin/users";
              EvTimer 3; EvIdle 0; EvIdle 0; EvSettle 0 Resolved] fresh with
  | Some st => Forall (λ r, JS.startsWith r "/admin" = false) (loaderCalls st)
  | None => False
  end.
Proof.
  destruct (exec [EvRender visitor "/admin"; EvRender customer "/admin/users";
                  EvTimer 3; EvIdle 0; EvIdle 0; EvSettle 0 Resolved] fresh)
    as [st |] eqn:Hexec.
  - apply (non_staff_session_loads_no_admin_route _ _ _ _ Hexec).
    repeat (constructor; [cbn [non_staff_event]; try reflexivity; exact I |]).
    constructor.
  - vm_compute in Hexec. discriminate Hexec.
Defined.

(** X9. A visitor's session loads only public bundles.  In any run from
    the start of a session in which every evaluation sees an
    unauthenticated user without a staff role and no return URL is given,
    every loader invocation and every route of the Loaded Set is one of
    login, register, catalog, products and the privacy policy. *)
Theorem visitor_session_loads_public_routes
    (es : list event) (n : option navigator) (ric : bool) (st : state) :
  exec es (init n ric) = Some st →
  Forall visitor_event es →
  Forall (λ r, r ∈ visitor_routes) (loaderCalls st) ∧
  (∀ r, r ∈ prefetchedRoutes st → r ∈ visitor_routes).
Proof.
  intros Hexec Hes.
  assert (within (λ r, r ∈ visitor_routes) st) as (_ & _ & _ & Hl & Hs).
  { eapply exec_within; [exact Hexec | | apply init_within].
    eapply Forall_impl; [exact Hes | apply visitor_event_within]. }
  split; [exact Hl | exact Hs].
Qed.

Lemma visitor_session_loads_public_routes_witness :
  match exec [EvRender visitor "/"; EvRender visitor "/cart"; EvTimer 0; EvIdle 1;
              EvSettle 0 Resolved] fresh with
  | Some st => ∀ r, r ∈ prefetchedRoutes st → r ∈ visitor_routes
  | None => False
  end.
Proof.
  destruct (exec [EvRender visitor "/"; EvRender visitor "/cart"; EvTimer 0; EvIdle 1;
                  EvSettle 0 Resolved] fresh) as [st |] eqn:Hexec.
  - apply (visitor_session_loads_public_routes _ _ _ _ Hexec).
    repeat (constructor;
            [cbn [visitor_event]; first [exact I | split; reflexivity] |]).
    constructor.
  - vm_compute in Hexec. discriminate Hexec.
Defined.

(** ** Further properties of the return-URL prefetcher *)

Lemma prefix_cons a p b s :
  String.prefix (String a p) (String b s) =
    if ascii_dec a b then String.prefix p s else false.
Proof. reflexivity. Qed.

Lemma prefix_nil s : String.prefix EmptyString s = true.
Proof. by destruct s. Qed.

Lemma prefix_append p s : String.prefix p (p +:+ s) = true.
Proof.
  induction p as [| a p IH]; [apply prefix_nil |].
  change (String.prefix (String a p) (String a (p +:+ s)) = true).
  rewrite prefix_cons. by destruct (ascii_dec a a).
Qed.

Lemma strip_suffix_append p s :
  occurs "?" p = false → occurs "#" p = false →
  strip_suffix (p +:+ s) = p +:+ strip_suffix s.
Proof.
  induction p as [| a p IH]; [done |].
  change (strip_suffix (String a p +:+ s)) with
    (if (Ascii.eqb a "?") || (Ascii.eqb a "#") then EmptyString
     else String a (strip_suffix (p +:+ s))).
  cbn [occurs]. intros [Ha1 Hp1]%orb_false_elim [Ha2 Hp2]%orb_false_elim.
  rewrite Ha1, Ha2. cbn [orb]. by rewrite IH.
Qed.

Lemma length_split sep s : length (JS.split sep s) = S (count_char sep s).
Proof.
  induction s as [| c rest IH]; [done |]. cbn [JS.split count_char].
  destruct (split_nonempty sep rest) as (piece & pieces & Hsplit).
  rewrite Hsplit in IH |- *.
  destruct (Ascii.eqb c sep); cbn [length] in IH |- *; lia.
Qed.

Lemma normalizedUrl_is_strip_suffix returnUrl :
  normalizedUrl returnUrl = strip_suffix returnUrl.
Proof. apply normalizedUrl_strip_suffix. Qed.

(** X10. Shop routes are matched by prefix.  A return URL that begins with
    the path of the cart, the wishlist, the profile or the checkout makes
    the idle callback request exactly that route, whatever follows the
    prefix: further segments, a query, a fragment, or more letters. *)
Theorem return_url_shop_prefix (base rest : string) (st : state) :
  base ∈ shop_routes →
  run_callback (CbReturnUrl (base +:+ rest)) st = prefetchRoute base st.
Proof.
  intros Hbase. rewrite run_return_url.
  assert (returnUrl_target (base +:+ rest) = Some base) as ->; [| reflexivity].
  unfold returnUrl_target.
  assert (occurs "?" base = false ∧ occurs "#" base = false) as [Hq Hh].
  { unfold shop_routes in Hbase.
    repeat (apply elem_of_cons in Hbase as [-> | Hbase]; [by split |]).
    by apply elem_of_nil in Hbase. }
  rewrite (strip_suffix_append base rest Hq Hh).
  pose proof (prefix_append base (strip_suffix rest)) as Hpre.
  revert Hpre. generalize (strip_suffix rest) as tail. intros tail Hpre.
  unfold shop_routes in Hbase.
  apply elem_of_cons in Hbase as [-> | Hbase]; [by rewrite Hpre |].
  apply elem_of_cons in Hbase as [-> | Hbase]; [by rewrite Hpre |].
  apply elem_of_cons in Hbase as [-> | Hbase]; [by rewrite Hpre |].
  apply elem_of_cons in Hbase as [-> | Hbase]; [by rewrite Hpre |].
  by apply elem_of_nil in Hbase.
Qed.

Lemma return_url_shop_prefix_witness :
  run_callback (CbReturnUrl "/cartoon/7?x=1#top") fresh = prefetchRoute "/cart" fresh.
Proof.
  apply (return_url_shop_prefix "/cart" "oon/7?x=1#top" fresh).
  left.
Defined.

Lemma admin_prefix_excludes_shop path :
  String.prefix "/admin" path = true →
  String.prefix "/cart" path = false ∧ String.prefix "/wishlist" path = false ∧
  String.prefix "/profile" path = false ∧ String.prefix "/checkout" path = false.
Proof.
  destruct path as [| c1 [| c2 rest]]; [done | |].
  - rewrite prefix_cons. by destruct (ascii_dec "/" c1).
  - rewrite !prefix_cons.
    destruct (ascii_dec "/" c1) as [<- | ?]; [| done].
    destruct (ascii_dec "a" c2) as [<- | ?]; [| done].
    intros _. repeat split; reflexivity.
Qed.

(** X11. Admin return URLs are resolved by counting slashes.  When the
    return URL, cut at its query or fragment, begins with the admin prefix,
    the idle callback requests the admin dashboard if that path contains
    one slash, requests the admin prefix followed by what stands after the
    second slash if it contains two, and requests nothing at all if it
    contains three or more.  The first segment is not compared beyond its
    prefix and the second may be empty or unknown to the route table. *)
Theorem return_url_admin_by_slashes (returnUrl : string) (st : state) :
  String.prefix "/admin" (strip_suffix returnUrl) = true →
  (count_char "/" (strip_suffix returnUrl) = 1 →
     run_callback (CbReturnUrl returnUrl) st = prefetchRoute "/admin" st) ∧
  (count_char "/" (strip_suffix returnUrl) = 2 →
     ∃ first segment,
       strip_suffix returnUrl = String "/" (first +:+ String "/" segment) ∧
       run_callback (CbReturnUrl returnUrl) st = prefetchRoute ("/admin/" +:+ segment) st) ∧
  (3 ≤ count_char "/" (strip_suffix returnUrl) →
     run_callback (CbReturnUrl returnUrl) st = st).
Proof.
  intros Hadmin. rewrite run_return_url.
  destruct (admin_prefix_excludes_shop _ Hadmin) as (H1 & H2 & H3 & H4).
  pose proof (length_split "/" (strip_suffix returnUrl)) as Hlen.
  pose proof (returnUrl_target_shape returnUrl) as Hshape.
  unfold returnUrl_target in *. rewrite H1, H2, H3, H4, Hadmin in *.
  destruct (JS.split "/" (strip_suffix returnUrl)) as [| a [| b [| c [| d rest]]]];
    cbn [length] in Hlen.
  - split; [| split]; intros Hn; lia.
  - split; [| split]; intros Hn; lia.
  - split; [| split]; intros Hn; try lia. reflexivity.
  - split; [| split]; intros Hn; try lia.
    destruct (Hshape _ eq_refl) as [[Hin _] | (first & segment & Hpath & _ & _ & _ & Hroute)].
    + exfalso.
      repeat (apply elem_of_cons in Hin as [Hin | Hin]; [discriminate Hin |]).
      by apply elem_of_nil in Hin.
    + exists first, segment. split; [exact Hpath |]. by rewrite Hroute.
  - split; [| split]; intros Hn; try lia. reflexivity.
Qed.

Lemma return_url_admin_by_slashes_witness :
  run_callback (CbReturnUrl "/administrator#top") fresh = prefetchRoute "/admin" fresh ∧
  (∃ first segment,
     strip_suffix "/admin/?tab=2" = String "/" (first +:+ String "/" segment) ∧
     run_callback (CbReturnUrl "/admin/?tab=2") fresh
       = prefetchRoute ("/admin/" +:+ segment) fresh) ∧
  run_callback (CbReturnUrl "/admin/users/42") fresh = fresh.
Proof.
  split; [| split].
  - apply (return_url_admin_by_slashes "/administrator#top" fresh); reflexivity.
  - apply (return_url_admin_by_slashes "/admin/?tab=2" fresh); reflexivity.
  - apply (return_url_admin_by_slashes "/admin/users/42" fresh).
    + reflexivity.
    + vm_compute. lia.
Defined.

Lemma strip_suffix_free s :
  occurs "?" (strip_suffix s) = false ∧ occurs "#" (strip_suffix s) = false.
Proof.
  induction s as [| c rest [IH1 IH2]]; [done |]. cbn [strip_suffix].
  destruct (Ascii.eqb c "?") eqn:Hq; [done |].
  destruct (Ascii.eqb c "#") eqn:Hh; [done |].
  cbn [orb occurs]. by rewrite Hq, Hh, IH1, IH2.
Qed.

Lemma strip_suffix_split s :
  ∃ rest, s = strip_suffix s +:+ rest ∧
          (rest = EmptyString ∨ ∃ tail, rest = String "?" tail ∨ rest = String "#" tail).
Proof.
  induction s as [| c s (rest & IH & Hrest)]; [by exists EmptyString; split; [| left] |].
  cbn [strip_suffix].
  destruct (Ascii.eqb_spec c "?") as [-> | Hq].
  { exists (String "?" s). split; [reflexivity |]. right. exists s. by left. }
  destruct (Ascii.eqb_spec c "#") as [-> | Hh].
  { exists (String "#" s). split; [reflexivity |]. right. exists s. by right. }
  cbn [orb]. exists rest. split; [| exact Hrest].
  change (String c s = String c (strip_suffix s +:+ rest)). by rewrite <- IH.
Qed.

Lemma strip_suffix_id s :
  occurs "?" s = false → occurs "#" s = false → strip_suffix s = s.
Proof.
  induction s as [| c s IH]; [done |]. cbn [occurs strip_suffix].
  intros [Hq Hs1]%orb_false_elim [Hh Hs2]%orb_false_elim.
  rewrite Hq, Hh. cbn [orb]. by rewrite IH.
Qed.

(** X12. Cutting off the query and the fragment.  The normalized URL
    contains neither a question mark nor a hash sign; the return URL is the
    normalized URL followed by nothing or by a rest that starts with one of
    the two; a return URL that contains neither is left as it is; and
    normalizing twice gives the same as normalizing once. *)
Theorem normalizedUrl_cuts_suffix (returnUrl : string) :
  (occurs "?" (normalizedUrl returnUrl) = false ∧
   occurs "#" (normalizedUrl returnUrl) = false) ∧
  (∃ rest, returnUrl = normalizedUrl returnUrl +:+ rest ∧
           (rest = EmptyString ∨
            ∃ tail, rest = String "?" tail ∨ rest = String "#" tail)) ∧
  (occurs "?" returnUrl = false → occurs "#" returnUrl = false →
     normalizedUrl returnUrl = returnUrl) ∧
  normalizedUrl (normalizedUrl returnUrl) = normalizedUrl returnUrl.
Proof.
  rewrite !normalizedUrl_is_strip_suffix.
  split; [apply strip_suffix_free |]. split; [apply strip_suffix_split |].
  split; [apply strip_suffix_id |].
  apply strip_suffix_id; apply strip_suffix_free.
Qed.

Lemma normalizedUrl_cuts_suffix_witness :
  normalizedUrl "/checkout/step-2" = "/checkout/step-2".
Proof.
  apply (normalizedUrl_cuts_suffix "/checkout/step-2"); reflexivity.
Defined.

(** ** A wave from timer to Loaded Set *)

Lemma shouldPrefetch_nav st st' : nav st' = nav st → shouldPrefetch st' = shouldPrefetch st.
Proof. intros H. unfold shouldPrefetch. by rewrite H. Qed.

Lemma run_idle_requests routes st :
  idle_queue st =
    map (λ r, {| idle_timeout := Some 2000%N; idle_cb := CbPrefetch r |}) routes →
  ∃ st',
    exec (replicate (length routes) (EvIdle 0)) st = Some st' ∧
    idle_queue st' = [] ∧
    timers st' = timers st ∧
    prefetchedRoutes st' = prefetchedRoutes st ∧
    loaderCalls st' = loaderCalls st ++ loadable (prefetchedRoutes st) routes ∧
    inflight st' = inflight st ++ loadable (prefetchedRoutes st) routes.
Proof.
  revert st. induction routes as [| r rs IH]; intros st Hq.
  - exists st. rewrite loadable_nil, !app_nil_r. by repeat split.
  - cbn [length replicate exec step]. rewrite Hq. cbn [map lookup list_lookup mbind option_bind idle_cb].
    set (st0 := set_idle_queue (delete 0) st).
    destruct (prefetchRoute_frame r st0) as (Hs & _ & _ & _ & _ & Ht & Hq').
    destruct (IH (prefetchRoute r st0)) as (st' & Hexec & Hq1 & Ht1 & Hs1 & Hl1 & Hi1).
    { rewrite Hq'. unfold st0. cbn [idle_queue set_idle_queue]. by rewrite Hq. }
    exists st'. split; [exact Hexec |]. split; [exact Hq1 |].
    rewrite Ht1, Hs1, Hl1, Hi1, Hs, Ht, prefetchRoute_loaderCalls, prefetchRoute_inflight.
    rewrite (loadable_cons _ r rs), <- !app_assoc. by repeat split.
Qed.

Lemma run_settlements routes st :
  inflight st = routes →
  ∃ st',
    exec (replicate (length routes) (EvSettle 0 Resolved)) st = Some st' ∧
    inflight st' = [] ∧
    prefetchedRoutes st' = list_to_set routes ∪ prefetchedRoutes st ∧
    loaderCalls st' = loaderCalls st ∧
    timers st' = timers st ∧
    idle_queue st' = idle_queue st.
Proof.
  revert st. induction routes as [| r rs IH]; intros st Hi.
  - exists st. split; [reflexivity |]. split; [exact Hi |].
    split; [| by repeat split]. rewrite list_to_set_nil. by rewrite (left_id_L ∅ (∪)).
  - cbn [length replicate exec step]. rewrite Hi.
    cbn [lookup list_lookup mbind option_bind].
    destruct (IH (onFulfilled r (set_inflight (delete 0) st)))
      as (st' & Hexec & Hi1 & Hs1 & Hl1 & Ht1 & Hq1).
    { cbn [inflight onFulfilled set_console set_prefetchedRoutes set_inflight].
      by rewrite Hi. }
    exists st'. split; [exact Hexec |]. split; [exact Hi1 |].
    rewrite Hs1, Hl1, Ht1, Hq1. split; [| by repeat split].
    cbn [prefetchedRoutes onFulfilled set_console set_prefetchedRoutes set_inflight].
    rewrite list_to_set_cons.
    rewrite (comm_L (∪) {[r]} (list_to_set rs)), <- (assoc_L (∪)). reflexivity.
Qed.

Lemma exec_app es1 es2 st : exec (es1 ++ es2) st = exec es1 st ≫= exec es2.
Proof.
  revert st. induction es1 as [| e es1 IH]; intros st; [done |].
  cbn [app exec]. destruct (step e st) as [st1 |]; [apply IH | done].
Qed.

(** X13. A wave runs to completion.  From a state with nothing pending,
    on a host with idle scheduling and with the gate open, a wave set by
    [prefetchWithDelay] goes through the whole pipeline: after its delay
    the timer fires and queues one idle callback per route, each idle
    callback invokes the loader of its route unless the route is loaded or
    unknown, and when these promises resolve the Loaded Set holds every
    route of the wave that has a loader.  Nothing stays pending. *)
Theorem wave_runs_to_completion (routes : list string) (delay : N) (st : state) :
  shouldPrefetch st = true → hasRequestIdleCallback st = true →
  timers st = [] → idle_queue st = [] → inflight st = [] →
  ∃ st',
    exec (EvTick delay :: EvTimer 0 ::
          replicate (length routes) (EvIdle 0) ++
          replicate (length (loadable (prefetchedRoutes st) routes)) (EvSettle 0 Resolved))
         (prefetchWithDelay routes delay st) = Some st' ∧
    loaderCalls st' = loaderCalls st ++ loadable (prefetchedRoutes st) routes ∧
    prefetchedRoutes st' =
      list_to_set (loadable (prefetchedRoutes st) routes) ∪ prefetchedRoutes st ∧
    (∀ r, r ∈ routes → is_Some (routeComponentMap !! r) → r ∈ prefetchedRoutes st') ∧
    timers st' = [] ∧ idle_queue st' = [] ∧ inflight st' = [].
Proof.
  intros Hgate Hric Ht Hq Hi.
  set (st1 := set_timers (delete 0) (set_now (now st + delay)%N (prefetchWithDelay routes delay st))).
  assert (step (EvTimer 0) (set_now (now st + delay)%N (prefetchWithDelay routes delay st))
          = Some (run_callback (CbWave routes) st1)) as Hfire.
  { cbn [step timers set_now prefetchWithDelay setTimeout set_timers now].
    rewrite Ht. cbn [app lookup list_lookup mbind option_bind due timer_cb].
    by rewrite N.leb_refl. }
  assert (shouldPrefetch st1 = true) as Hgate1.
  { rewrite <- Hgate. by apply shouldPrefetch_nav. }
  destruct (run_wave_open routes st1 Hgate1) as (Hq2 & Ht2 & Hs2 & Hl2 & Hi2 & _).
  set (st2 := run_callback (CbWave routes) st1) in *.
  assert (idle_queue st2 =
            map (λ r, {| idle_timeout := Some 2000%N; idle_cb := CbPrefetch r |}) routes)
    as Hq2'.
  { rewrite Hq2. unfold idle_requests_of, st1.
    cbn [idle_queue hasRequestIdleCallback set_timers set_now prefetchWithDelay setTimeout].
    rewrite Hq, Hric, map_map. reflexivity. }
  destruct (run_idle_requests routes st2 Hq2') as (st3 & Hexec3 & Hq3 & Ht3 & Hs3 & Hl3 & Hi3).
  assert (prefetchedRoutes st2 = prefetchedRoutes st) as Hs2' by exact Hs2.
  assert (inflight st3 = loadable (prefetchedRoutes st) routes) as Hi3'.
  { rewrite Hi3, Hi2, Hs2'. unfold st1.
    cbn [inflight set_timers set_now prefetchWithDelay setTimeout]. by rewrite Hi. }
  destruct (run_settlements _ st3 Hi3') as (st4 & Hexec4 & Hi4 & Hs4 & Hl4 & Ht4 & Hq4).
  exists st4. split.
  - assert (step (EvTick delay) (prefetchWithDelay routes delay st) =
              Some (set_now (now st + delay)%N (prefetchWithDelay routes delay st)))
      as Htick by reflexivity.
    cbn [exec]. rewrite Htick. cbn [mbind option_bind].
    rewrite Hfire. cbn [mbind option_bind]. fold st2.
    rewrite exec_app, Hexec3. cbn [mbind option_bind]. exact Hexec4.
  - assert (prefetchedRoutes st4 =
              list_to_set (loadable (prefetchedRoutes st) routes) ∪ prefetchedRoutes st)
      as Hset by (by rewrite Hs4, Hs3, Hs2').
    split; [by rewrite Hl4, Hl3, Hl2, Hs2' |]. split; [exact Hset |].
    split; [| split; [| split]].
    + intros r Hr Hsome. rewrite Hset.
      destruct (decide (r ∈ prefetchedRoutes st)) as [Hin | Hnin].
      * apply elem_of_union. by right.
      * apply elem_of_union. left. apply elem_of_list_to_set.
        unfold loadable. apply list_elem_of_filter. by split.
    + rewrite Ht4, Ht3, Ht2. unfold fallback_timers_of, st1.
      cbn [timers hasRequestIdleCallback set_timers set_now prefetchWithDelay setTimeout].
      by rewrite Ht, Hric.
    + by rewrite Hq4.
    + exact Hi4.
Qed.

Lemma wave_runs_to_completion_witness :
  ∃ st',
    exec [EvTick 1000%N; EvTimer 0; EvIdle 0; EvIdle 0;
          EvSettle 0 Resolved; EvSettle 0 Resolved]
         (prefetchWithDelay ["/catalog"; "/products"] 1000%N fresh) = Some st' ∧
    loaderCalls st' = ["/catalog"; "/products"] ∧
    "/products" ∈ prefetchedRoutes st'.
Proof.
  destruct (wave_runs_to_completion ["/catalog"; "/products"] 1000%N fresh
              eq_refl eq_refl eq_refl eq_refl eq_refl)
    as (st' & Hexec & Hl & _ & Hall & _).
  exists st'. split; [| split].
  - etransitivity; [| exact Hexec]. vm_compute. reflexivity.
  - etransitivity; [exact Hl | vm_compute; reflexivity].
  - apply Hall; [right; left |].
    exists "@/pages/product-detail-page". vm_compute. reflexivity.
Defined.

(** ** Exceptions

    The only statement of the module that can throw is the call of an
    inherited value in [prefetchRoute], and no run of a session reaches
    it. *)

Lemma harmless_untouched (c : cmd) : (∀ st, uncaught (c st) = uncaught st) → harmless c.
Proof. intros H. exact H. Qed.

Lemma harmless_skip : harmless skip.
Proof. intros st. reflexivity. Qed.

Lemma harmless_seq c1 c2 : harmless c1 → harmless c2 → harmless (c1 ;; c2).
Proof. intros H1 H2 st. unfold seq. by rewrite H2, H1. Qed.

Lemma harmless_when b c : harmless c → harmless (when b c).
Proof. destruct b; [done | intros _; apply harmless_skip]. Qed.

Lemma harmless_forEach {A} (xs : list A) (f : A → cmd) :
  (∀ x, x ∈ xs → harmless (f x)) → harmless (forEach xs f).
Proof.
  induction xs as [| x xs IH]; intros Hf; cbn [forEach]; [apply harmless_skip |].
  apply harmless_seq; [apply Hf; by left |]. apply IH. intros y Hy. apply Hf. by right.
Qed.

Lemma harmless_prefetchRoute route : slashed route → harmless (prefetchRoute route).
Proof.
  intros Hroute st. unfold prefetchRoute, routeComponentMap_get.
  destruct (bool_decide (route ∈ prefetchedRoutes st)); [reflexivity |].
  destruct (routeComponentMap !! route); [reflexivity |].
  by rewrite (slashed_not_inherited route Hroute).
Qed.

Lemma harmless_console_log msg : harmless (console_log msg).
Proof. intros st. reflexivity. Qed.

Lemma harmless_set_previousAuthState v : harmless (set_previousAuthState v).
Proof. intros st. reflexivity. Qed.

Lemma harmless_prefetchWithDelay routes delay : harmless (prefetchWithDelay routes delay).
Proof. intros st. reflexivity. Qed.

Lemma harmless_safeRequestIdleCallback cb timeout :
  harmless (safeRequestIdleCallback cb timeout).
Proof.
  intros st. unfold safeRequestIdleCallback.
  by destruct (hasRequestIdleCallback st).
Qed.

Ltac harmless_steps :=
  repeat lazymatch goal with
    | |- harmless (seq _ _) => apply harmless_seq
    | |- harmless (when _ _) => apply harmless_when
    | |- harmless skip => apply harmless_skip
    | |- harmless (console_log _) => apply harmless_console_log
    | |- harmless (set_previousAuthState _) => apply harmless_set_previousAuthState
    | |- harmless (prefetchWithDelay _ _) => apply harmless_prefetchWithDelay
    | |- harmless (safeRequestIdleCallback _ _) =>
        apply harmless_safeRequestIdleCallback
    | |- harmless (forEach _ (λ _, safeRequestIdleCallback _ _)) =>
        apply harmless_forEach; intros ? _
    | |- harmless (if ?b then _ else _) => destruct b
    end.

Lemma harmless_aftermath cb : harmless (aftermath cb).
Proof.
  destruct cb as [routes | route | staff | | returnUrl]; cbn [aftermath];
    try apply harmless_skip.
  - intros st. cbn [run_callback]. destruct (shouldPrefetch st); [| reflexivity].
    apply (harmless_forEach routes
             (λ route, safeRequestIdleCallback (CbPrefetch route) (Some 2000%N))).
    intros r _. apply harmless_safeRequestIdleCallback.
  - harmless_steps.
Qed.

Lemma harmless_run_callback cb : callback_slashed cb → harmless (run_callback cb).
Proof.
  intros Hcb st. rewrite run_callback_requests, harmless_aftermath.
  revert st. apply harmless_forEach. intros r Hr. apply harmless_prefetchRoute.
  by eapply Forall_forall in Hr; [| by apply requests_slashed].
Qed.

Lemma harmless_usePrefetchRoutes a location : harmless (usePrefetchRoutes a location).
Proof.
  intros st. unfold usePrefetchRoutes.
  destruct (negb (authInitialized a) || negb (shouldPrefetch st)); [reflexivity |].
  generalize (bool_decide (previousAuthState st = Some false)).
  generalize (bool_decide ("/admin" ∈ prefetchedRoutes st)).
  intros b1 b2. cbv zeta.
  lazymatch goal with
  | |- uncaught (?c st) = _ => enough (harmless c) as Hc by apply Hc
  end.
  harmless_steps.
Qed.

Lemma harmless_usePrefetchFromReturnUrl returnUrl :
  harmless (usePrefetchFromReturnUrl returnUrl).
Proof.
  intros st. unfold usePrefetchFromReturnUrl.
  destruct (negb (shouldPrefetch st)); [reflexivity |].
  destruct returnUrl as [r |]; [| reflexivity].
  destruct (negb (r =? "")%string); [| reflexivity].
  lazymatch goal with
  | |- uncaught (?c st) = _ => enough (harmless c) as Hc by apply Hc
  end.
  harmless_steps.
Qed.

Lemma step_uncaught e st st' :
  step e st = Some st' → schedule_slashed st → uncaught st' = uncaught st.
Proof.
  destruct e as [dt | i | i | i outcome | n | a location | returnUrl]; cbn [step];
    intros Hstep [Ht Hq].
  - injection Hstep as <-. reflexivity.
  - destruct (timers st !! i) as [t |] eqn:Hi; cbn [mbind option_bind] in Hstep;
      [| discriminate Hstep].
    destruct (due t <=? now st)%N; [| discriminate Hstep]. injection Hstep as <-.
    refine (harmless_run_callback (timer_cb t) _ (set_timers (delete i) st)).
    apply (proj1 (Forall_forall _ _) Ht). by eapply list_elem_of_lookup_2.
  - destruct (idle_queue st !! i) as [r |] eqn:Hi; cbn [mbind option_bind] in Hstep;
      [| discriminate Hstep].
    injection Hstep as <-.
    refine (harmless_run_callback (idle_cb r) _ (set_idle_queue (delete i) st)).
    apply (proj1 (Forall_forall _ _) Hq). by eapply list_elem_of_lookup_2.
  - destruct (inflight st !! i) as [route |]; cbn [mbind option_bind] in Hstep;
      [| discriminate Hstep].
    injection Hstep as <-. by destruct outcome.
  - injection Hstep as <-. reflexivity.
  - injection Hstep as <-. apply harmless_usePrefetchRoutes.
  - injection Hstep as <-. apply harmless_usePrefetchFromReturnUrl.
Qed.

(** X14. No exception escapes.  In every run of a session, whatever the
    auth states, locations, return URLs, network changes and loader
    outcomes, no callback of the module and neither hook throws: the one
    statement that could, the call of a value the route table inherits
    from its prototype, is never reached, because every route that is
    looked up begins with a slash. *)
Theorem no_exception_escapes (es : list event) (n : option navigator) (ric : bool)
    (st : state) :
  exec es (init n ric) = Some st → uncaught st = [].
Proof.
  intros Hexec.
  apply (exec_invariant (λ st, schedule_slashed st ∧ uncaught st = []))
    with (es := es) (st := init n ric); [| exact Hexec |].
  - intros e st0 st1 Hstep [Hsl Hun]. split; [by eapply step_schedule_slashed |].
    by rewrite (step_uncaught e st0 st1 Hstep Hsl).
  - split; [by split; constructor | reflexivity].
Qed.

Lemma no_exception_escapes_witness :
  match exec [EvMount (Some "/admin/constructor"); EvIdle 0; EvRender staff_member "/admin";
              EvIdle 0] fresh with
  | Some st => uncaught st = []
  | None => False
  end.
Proof.
  destruct (exec [EvMount (Some "/admin/constructor"); EvIdle 0;
                  EvRender staff_member "/admin"; EvIdle 0] fresh) as [st |] eqn:Hexec.
  - exact (no_exception_escapes _ _ _ _ Hexec).
  - vm_compute in Hexec. discriminate Hexec.
Defined.
